(** * Visual script graph compiler: shallow embedding and verification

    This development embeds the graph compiler of
    [src/editor/visual_script_plugins.cpp] (the LEB128 writer, the graph
    model with its persistence, the per-node code generators and the WASM
    module writer) and proves the properties stated for it.

    Conventions.
    - Unsigned machine integers ([u8], [u32], [u64]) are values of [N]; the
      places where C++ wraps around are written out with [mod].
    - A 32-bit float is carried as its raw 32-bit pattern (an [N]); the
      compiler only copies floats, it never computes with them.
    - An [OutputMemoryStream] is the list of bytes written so far; writing
      appends.  An [InputMemoryStream] is the list of bytes not yet read.
    - A [Node*] is the position of the node in [Graph::m_nodes].
    - Recursion through the links of a graph can run forever on a cyclic
      graph; the generators therefore take a fuel argument and return an
      [outcome]. *)

From Equations.Prop Require Import Equations Logic.
From stdpp Require Import base numbers list strings.
From Stdlib Require Import Ascii.

Open Scope N_scope.

(** ** Machine integers *)

Definition byte := N.

Definition u32_mod : N := 2 ^ 32.
Definition u64_mod : N := 2 ^ 64.

(** Conversion of a signed value to [u64] (two's complement), as done by the
    implicit conversion at a call [writeLEB128(blob, x)] with a signed [x]. *)
Definition to_u64 (v : Z) : N := Z.to_N (v mod 2 ^ 64)%Z.

(** Reading a 64-bit pattern as a signed integer. *)
Definition to_i64 (n : N) : Z :=
  if n <? 2 ^ 63 then Z.of_N n else (Z.of_N n - 2 ^ 64)%Z.

(** [(u32)x] *)
Definition to_u32 (n : N) : N := n mod u32_mod.

(** ** Binary encoding primitives *)

(** The loop condition of [writeLEB128], lines 242-243.  [val] is the value
    after the shift; the literal [-1] is converted to [u64], i.e. to
    [2^64 - 1]. *)
Definition leb_end (val byte : N) : bool :=
  ((val =? 0) && (N.land byte 0x40 =? 0))
  || ((val =? u64_mod - 1) && negb (N.land byte 0x40 =? 0)).

(** [writeLEB128], lines 237-247.  The result is the list of bytes the
    function appends to [blob].  [val >>= 7] on a [u64] is a logical
    shift. *)
Equations writeLEB128 (val : N) : list byte by wf (N.to_nat (N.size val)) lt :=
  writeLEB128 val with inspect (leb_end (N.shiftr val 7) (N.land val 0x7f)) := {
    | exist _ true _ => [N.land val 0x7f]
    | exist _ false Hend =>
        N.lor (N.land val 0x7f) 0x80 :: writeLEB128 (N.shiftr val 7) }.
Next Obligation.
  intros val Hend _.
  assert (Hval : val ≠ 0) by (intros ->; discriminate Hend).
  destruct (N.eq_dec (N.shiftr val 7) 0) as [Hz | Hnz].
  - rewrite Hz. destruct val as [|p]; [done|]. simpl. lia.
  - rewrite !N.size_log2 by assumption.
    rewrite N.log2_shiftr.
    assert (7 ≤ N.log2 val).
    { destruct (N.lt_ge_cases (N.log2 val) 7) as [Hlt|]; [|done].
      exfalso. apply Hnz. apply N.shiftr_eq_0. lia. }
    lia.
Qed.

(** *** Reference decoder

    The reference signed-LEB128 decoder, after the decoding algorithm of the
    DWARF standard (Appendix C, "Algorithm to decode a signed LEB128
    number"), for a signed integer of 64 bits:
<<
      result = 0; shift = 0;
      do { byte = next byte;
           result |= (low order 7 bits of byte) << shift;
           shift += 7;
      } while (high order bit of byte != 0);
      if (shift < 64 && sign bit of byte is set) result |= (~0 << shift);
>>
    [result] is a 64-bit word. The decoder returns the signed value together
    with the bytes that follow the number; it fails on a truncated input. *)
Fixpoint decodeSLEB128_loop (bytes : list byte) (result shift : N)
  : option (N * N * byte * list byte) :=
  match bytes with
  | [] => None
  | b :: rest =>
      let result := N.lor result (N.shiftl (N.land b 0x7f) shift) mod u64_mod in
      let shift := shift + 7 in
      if N.land b 0x80 =? 0 then Some (result, shift, b, rest)
      else decodeSLEB128_loop rest result shift
  end.

Definition decodeSLEB128 (bytes : list byte) : option (Z * list byte) :=
  match decodeSLEB128_loop bytes 0 0 with
  | None => None
  | Some (result, shift, b, rest) =>
      let result :=
        if (shift <? 64) && negb (N.land b 0x40 =? 0)
        then N.lor result (N.shiftl (u64_mod - 1) shift mod u64_mod)
        else result in
      Some (to_i64 result, rest)
  end.

(** ** Outcomes

    [Abort] stands for the places where the C++ code stops being defined: a
    failing [ASSERT], a null pointer that is dereferenced, an array indexed
    out of range.  [OutOfFuel] is only produced when the fuel of a recursive
    generator is exhausted. *)
Inductive outcome (A : Type) : Type :=
| Done (a : A)
| Abort
| OutOfFuel.
Arguments Done {A} a.
Arguments Abort {A}.
Arguments OutOfFuel {A}.

Definition obind {A B} (x : outcome A) (f : A → outcome B) : outcome B :=
  match x with
  | Done a => f a
  | Abort => Abort
  | OutOfFuel => OutOfFuel
  end.

Notation "x ←o a ; b" := (obind a (λ x, b))
  (at level 20, a at level 100, b at level 200, right associativity,
   format "x  ←o  a ;  '/' b").
Notation "' p ←o a ; b" := (obind a (λ p, b))
  (at level 20, p pattern, a at level 100, b at level 200,
   right associativity, format "' p  ←o  a ;  '/' b").

(** ** Enumerations, lines 42-118 *)

Inductive WASMLumixAPI := SET_YAW_API | SET_PROPERTY_FLOAT | GET_PROPERTY_FLOAT.

Definition WASMLumixAPI_index (f : WASMLumixAPI) : N :=
  match f with
  | SET_YAW_API => 0
  | SET_PROPERTY_FLOAT => 1
  | GET_PROPERTY_FLOAT => 2
  end.

(** [WASMGlobals]: the index of the [self] global and of the first global of
    a graph variable. *)
Definition WASMGlobals_SELF : N := 0.
Definition WASMGlobals_USER : N := 1.

Inductive WASMSection :=
| SEC_TYPE | SEC_IMPORT | SEC_FUNCTION | SEC_TABLE | SEC_MEMORY | SEC_GLOBAL
| SEC_EXPORT | SEC_START | SEC_ELEMENT | SEC_CODE | SEC_DATA | SEC_DATA_COUNT.

Definition WASMSection_byte (s : WASMSection) : byte :=
  match s with
  | SEC_TYPE => 1 | SEC_IMPORT => 2 | SEC_FUNCTION => 3 | SEC_TABLE => 4
  | SEC_MEMORY => 5 | SEC_GLOBAL => 6 | SEC_EXPORT => 7 | SEC_START => 8
  | SEC_ELEMENT => 9 | SEC_CODE => 10 | SEC_DATA => 11 | SEC_DATA_COUNT => 12
  end.

Inductive WASMExternalType := EXT_FUNCTION | EXT_TABLE | EXT_MEMORY | EXT_GLOBAL.

Definition WASMExternalType_byte (t : WASMExternalType) : byte :=
  match t with
  | EXT_FUNCTION => 0 | EXT_TABLE => 1 | EXT_MEMORY => 2 | EXT_GLOBAL => 3
  end.

Inductive WASMType := F64 | F32 | I64 | I32 | VOID.

Definition WASMType_byte (t : WASMType) : byte :=
  match t with
  | F64 => 0x7C | F32 => 0x7D | I64 => 0x7E | I32 => 0x7F | VOID => 0xFF
  end.

Module WasmOp.
Definition IF : byte := 0x04.
Definition ELSE : byte := 0x05.
Definition END : byte := 0x0B.
Definition CALL : byte := 0x10.
Definition LOCAL_GET : byte := 0x20.
Definition GLOBAL_GET : byte := 0x23.
Definition GLOBAL_SET : byte := 0x24.
Definition I32_CONST : byte := 0x41.
Definition I64_CONST : byte := 0x42.
Definition F32_CONST : byte := 0x43.
Definition F64_CONST : byte := 0x44.
Definition I32_EQ : byte := 0x46.
Definition I32_NEQ : byte := 0x47.
Definition I32_LT_S : byte := 0x48.
Definition I32_GT_S : byte := 0x4A.
Definition I32_LE_S : byte := 0x4C.
Definition I32_GE_S : byte := 0x4E.
Definition F32_EQ : byte := 0x5B.
Definition F32_NEQ : byte := 0x5C.
Definition F32_LT : byte := 0x5D.
Definition F32_GT : byte := 0x5E.
Definition F32_LE : byte := 0x5F.
Definition F32_GE : byte := 0x60.
Definition I32_ADD : byte := 0x6A.
Definition I32_MUL : byte := 0x6C.
Definition F32_ADD : byte := 0x92.
Definition F32_MUL : byte := 0x94.
End WasmOp.

(** [Node::Type], lines 121-147; the enumerators are numbered from 0 in the
    order of their declaration. *)
Inductive NodeType :=
| ADD | SEQUENCE | SELF | SET_YAW | CONST | MOUSE_MOVE | UPDATE | GET_VARIABLE
| SET_VARIABLE | SET_PROPERTY | MUL | CALL | VEC3 | YAW_TO_DIR | START | IF
| EQ | NEQ | GT | LT | GTE | LTE | KEY_INPUT | GET_PROPERTY | SWITCH.

Global Instance NodeType_eq_dec : EqDecision NodeType.
Proof. solve_decision. Defined.

Definition NodeType_list : list NodeType :=
  [ADD; SEQUENCE; SELF; SET_YAW; CONST; MOUSE_MOVE; UPDATE; GET_VARIABLE;
   SET_VARIABLE; SET_PROPERTY; MUL; CALL; VEC3; YAW_TO_DIR; START; IF;
   EQ; NEQ; GT; LT; GTE; LTE; KEY_INPUT; GET_PROPERTY; SWITCH].

Definition NodeType_of_u32 (n : N) : option NodeType :=
  NodeType_list !! N.to_nat n.

Definition NodeType_to_u32 (t : NodeType) : N :=
  match t with
  | ADD => 0 | SEQUENCE => 1 | SELF => 2 | SET_YAW => 3 | CONST => 4
  | MOUSE_MOVE => 5 | UPDATE => 6 | GET_VARIABLE => 7 | SET_VARIABLE => 8
  | SET_PROPERTY => 9 | MUL => 10 | CALL => 11 | VEC3 => 12
  | YAW_TO_DIR => 13 | START => 14 | IF => 15 | EQ => 16 | NEQ => 17
  | GT => 18 | LT => 19 | GTE => 20 | LTE => 21 | KEY_INPUT => 22
  | GET_PROPERTY => 23 | SWITCH => 24
  end.

(** Modelled from the spec: [ScriptValueType], "one of a small closed
    enumeration of scalar kinds", is declared in [script.h], which is not
    among the sources at hand.  It is stored in a [u32] ("type:enum" of the
    persisted layout); the combo box of line 1749 indexes the labels "u32",
    "i32", "float", "entity" with its value, which gives the numbering.  A
    variable read from a file can hold any [u32] here, so the type is kept
    as the number. *)
Definition ScriptValueType := N.
Module ScriptValueType.
Definition U32 : ScriptValueType := 0.
Definition I32 : ScriptValueType := 1.
Definition FLOAT : ScriptValueType := 2.
Definition ENTITY : ScriptValueType := 3.
End ScriptValueType.

(** ** The engine interface

    The memory streams, the resource header and the reflection registry
    belong to the engine, not to this plugin.  Fixed-width values are stored
    little-endian, as [OutputMemoryStream::write] copies them from memory.
    Everything whose layout or content the plugin cannot see is a field of
    [Host]. *)
Record Host := {
  (** [OutputMemoryStream::writeString] and [InputMemoryStream::readString] *)
  stream_writeString : string → list byte;
  stream_readString : list byte → string * list byte;
  (** the bytes of a default-constructed [ScriptResource::Header] *)
  resource_header : list byte;
  (** [reflection::getComponent(t)->name]; [None] when [getComponent]
      returns a null pointer *)
  getComponentName : N → option string;
  (** [reflection::getComponentType(name)] *)
  getComponentType : string → N;
  (** [reflection::getComponentTypeFromHash(hash)] *)
  getComponentTypeFromHash : N → N;
  (** the names of [reflection::getComponent(t)->functions], in order *)
  getComponentFunctions : N → list string;
  (** [RuntimeHash(name)], a 64-bit hash *)
  RuntimeHash : string → N;
  (** [reflection::getPropertyHash(cmp_type, prop).getHashValue()] *)
  getPropertyHash : N → string → N;
  (** [(float)atof(value)], as the bit pattern of the float *)
  atof_f32 : string → N
}.

(** The bytes of [n] in [k] bytes, least significant first. *)
Fixpoint le_bytes (k : nat) (n : N) : list byte :=
  match k with
  | O => []
  | S k' => n mod 256 :: le_bytes k' (n / 256)
  end.

Definition le_value (bs : list byte) : N :=
  foldr (λ b acc, b + 256 * acc) 0 bs.

Definition write_u8 (n : N) : list byte := le_bytes 1 n.
Definition write_u32 (n : N) : list byte := le_bytes 4 n.
Definition write_u64 (n : N) : list byte := le_bytes 8 n.
Definition write_bool (b : bool) : list byte := [if b then 1 else 0].

(** Modelled from the spec: [InputMemoryStream::read(void*, size)] of the
    engine; "unreadable bytes" do not stop the reader: when fewer than [size]
    bytes are left the destination is filled with zeros and the position
    stays. *)
Definition read_bytes (k : nat) (blob : list byte) : list byte * list byte :=
  if (length blob <? k)%nat then (replicate k 0, blob)
  else (take k blob, drop k blob).

Definition read_u32 (blob : list byte) : N * list byte :=
  let '(bs, rest) := read_bytes 4 blob in (le_value bs, rest).
Definition read_u64 (blob : list byte) : N * list byte :=
  let '(bs, rest) := read_bytes 8 blob in (le_value bs, rest).
Definition read_bool (blob : list byte) : bool * list byte :=
  let '(bs, rest) := read_bytes 1 blob in (negb (le_value bs =? 0), rest).

(** The characters of a C string: everything before the first NUL. *)
Fixpoint c_str (s : string) : list byte :=
  match s with
  | EmptyString => []
  | String c s' =>
      if N_of_ascii c =? 0 then [] else N_of_ascii c :: c_str s'
  end.

(** [copyString(dst, src)] into a [char dst[size]]: at most [size - 1]
    characters are kept. *)
Fixpoint copyString (size : nat) (s : string) : string :=
  match size, s with
  | S (S _ as size'), String c s' => String c (copyString size' s')
  | _, _ => EmptyString
  end.

(** ** Graph model *)

(** [Variable], lines 34-38 ([Variable] is a reserved word here). *)
Record GraphVariable := {
  name : string;
  type : ScriptValueType
}.

(** Modelled from the spec: [NodeEditorLink] is declared by the editor;
    "links[from:u32,to:u32]".  The plugin reads the two endpoints raw (lines
    603, 634-645) and through the accessors below. *)
Record NodeEditorLink := {
  from : N;
  to : N
}.

(** Modelled from the spec: the accessors of [NodeEditorLink] are declared in
    the editor headers; "each endpoint is encoded as a single integer: low
    15 bits = node identifier, high bits = pin index on that side". *)
Definition getFromNode (l : NodeEditorLink) : N := N.land (from l) 0x7fff.
Definition getToNode (l : NodeEditorLink) : N := N.land (to l) 0x7fff.
Definition getFromPin (l : NodeEditorLink) : N := N.shiftr (from l) 16.
Definition getToPin (l : NodeEditorLink) : N := N.shiftr (to l) 16.

(** The node classes with their own data members, lines 648-1466.
    [CompareNode] is a template over the node type.  A [CallNode] points to
    a component and to one of its functions; here the component is named by
    its component type and the function by its name, [None] being the null
    pointer. *)
Inductive NodeData :=
| AddNode
| MulNode
| IfNode
| CompareNode (T : NodeType)
| SequenceNode
| SelfNode
| CallNode (component : option N) (function : option string)
| SetYawNode
| ConstNode (m_value : N)
| SwitchNode (m_is_on : bool)
| KeyInputNode
| MouseMoveNode
| Vec3Node
| YawToDirNode
| StartNode
| UpdateNode
| SetVariableNode (m_var : N)
| GetVariableNode (m_var : N)
| GetPropertyNode (prop : string) (cmp_type : N)
| SetPropertyNode (prop value : string) (cmp_type : N).

Definition INVALID_COMPONENT_TYPE : N := 0xFFFFFFFF.

(** [Node], lines 120-234, without the members that only serve the GUI
    ([m_selected], the pin counters). [m_pos] holds the two floats of an
    [ImVec2]. *)
Record Node := {
  m_id : N;
  m_pos : N * N;
  m_error : string;
  data : NodeData
}.

(** [Graph], lines 439-626. [m_path] and the allocator play no part in what
    follows and are left out. *)
Record Graph := {
  m_nodes : list Node;
  m_links : list NodeEditorLink;
  m_variables : list GraphVariable;
  m_node_counter : N
}.

Definition empty_graph : Graph :=
  {| m_nodes := []; m_links := []; m_variables := []; m_node_counter := 0 |}.

(** [Array::find]: the position of the first element that satisfies the
    predicate, [None] standing for the result [-1]. *)
Fixpoint find_index {A} (p : A → bool) (l : list A) : option nat :=
  match l with
  | [] => None
  | x :: l' => if p x then Some 0%nat else S <$> find_index p l'
  end.

(** [getType] of each node class *)
Definition getType (d : NodeData) : NodeType :=
  match d with
  | AddNode => ADD
  | MulNode => MUL
  | IfNode => IF
  | CompareNode T => T
  | SequenceNode => SEQUENCE
  | SelfNode => SELF
  | CallNode _ _ => CALL
  | SetYawNode => SET_YAW
  | ConstNode _ => CONST
  | SwitchNode _ => SWITCH
  | KeyInputNode => KEY_INPUT
  | MouseMoveNode => MOUSE_MOVE
  | Vec3Node => VEC3
  | YawToDirNode => YAW_TO_DIR
  | StartNode => START
  | UpdateNode => UPDATE
  | SetVariableNode _ => SET_VARIABLE
  | GetVariableNode _ => GET_VARIABLE
  | GetPropertyNode _ _ => GET_PROPERTY
  | SetPropertyNode _ _ _ => SET_PROPERTY
  end.

(** [Graph::addNode], lines 592-598.  The new node is the last one of
    [m_nodes]; the counter is a [u32]. *)
Definition addNode (d : NodeData) (g : Graph) : Graph :=
  let id := (m_node_counter g + 1) mod u32_mod in
  {| m_nodes := m_nodes g ++ [{| m_id := id; m_pos := (0, 0); m_error := EmptyString;
                                 data := d |}];
     m_links := m_links g;
     m_variables := m_variables g;
     m_node_counter := id |}.

(** The node each class constructs by default, as [Graph::createNode] builds
    it, lines 1872-1901. *)
Definition default_data (t : NodeType) : NodeData :=
  match t with
  | ADD => AddNode
  | MUL => MulNode
  | IF => IfNode
  | EQ => CompareNode EQ
  | NEQ => CompareNode NEQ
  | LT => CompareNode LT
  | GT => CompareNode GT
  | LTE => CompareNode LTE
  | GTE => CompareNode GTE
  | SEQUENCE => SequenceNode
  | SELF => SelfNode
  | SET_YAW => SetYawNode
  | CONST => ConstNode 0
  | MOUSE_MOVE => MouseMoveNode
  | KEY_INPUT => KeyInputNode
  | START => StartNode
  | UPDATE => UpdateNode
  | VEC3 => Vec3Node
  | CALL => CallNode None None
  | GET_VARIABLE => GetVariableNode 0
  | SET_VARIABLE => SetVariableNode 0
  | SET_PROPERTY => SetPropertyNode EmptyString EmptyString INVALID_COMPONENT_TYPE
  | YAW_TO_DIR => YawToDirNode
  | GET_PROPERTY => GetPropertyNode EmptyString INVALID_COMPONENT_TYPE
  | SWITCH => SwitchNode true
  end.

Definition createNode (t : NodeType) (g : Graph) : Graph :=
  addNode (default_data t) g.

(** The test of line 603 *)
Definition link_touches (node_id : N) (l : NodeEditorLink) : bool :=
  (N.land (from l) 0x7fff =? node_id) || (N.land (to l) 0x7fff =? node_id).

(** The loop of lines 602-606: [i] runs from [k - 1] down to [0]. *)
Fixpoint removeNode_links (node_id : N) (k : nat) (links : list NodeEditorLink)
  : list NodeEditorLink :=
  match k with
  | O => links
  | S i =>
      removeNode_links node_id i
        (match links !! i with
         | Some l => if link_touches node_id l then delete i links else links
         | None => links
         end)
  end.

(** [Graph::removeNode], lines 600-608. [node] is a position in [m_nodes];
    [m_nodes[node]] does not exist when it is out of range. *)
Definition removeNode (node : nat) (g : Graph) : option Graph :=
  match m_nodes g !! node with
  | None => None
  | Some n =>
      Some {| m_nodes := delete node (m_nodes g);
              m_links :=
                removeNode_links (m_id n) (length (m_links g)) (m_links g);
              m_variables := m_variables g;
              m_node_counter := m_node_counter g |}
  end.

(** [Graph::removeLink], lines 610-612 *)
Definition removeLink (link : nat) (g : Graph) : Graph :=
  {| m_nodes := m_nodes g;
     m_links := delete link (m_links g);
     m_variables := m_variables g;
     m_node_counter := m_node_counter g |}.

(** [Graph::getNode], lines 614-617; the result is the position of the node,
    [None] for the null pointer. *)
Definition getNode (id : N) (g : Graph) : option nat :=
  find_index (λ n, m_id n =? id) (m_nodes g).

(** [Node::NodeInput] and [Node::NodeOutput]: a node pointer and a pin. *)
Definition NodeInput : Type := option nat * N.
Definition NodeOutput : Type := option nat * N.

(** [Node::getOutputNode], lines 628-636, of the node with identifier
    [self_id]. *)
Definition getOutputNode (self_id idx : N) (g : Graph) : NodeInput :=
  match find_index (λ l, (getFromNode l =? self_id) && (getFromPin l =? idx))
          (m_links g) with
  | None => (None, 0)
  | Some i =>
      match m_links g !! i with
      | Some l => (getNode (N.land (to l) 0x7fff) g, N.shiftr (to l) 16)
      | None => (None, 0)
      end
  end.

(** [Node::getInputNode], lines 638-646 *)
Definition getInputNode (self_id idx : N) (g : Graph) : NodeOutput :=
  match find_index
          (λ l, to l =? N.lor self_id (N.shiftl idx 16 mod u32_mod))
          (m_links g) with
  | None => (None, 0)
  | Some i =>
      match m_links g !! i with
      | Some l => (getNode (N.land (from l) 0x7fff) g, N.shiftr (from l) 16)
      | None => (None, 0)
      end
  end.

(** ** Node behaviour *)

(** [getOutputType] of every node class.  [this] is the position of the node
    in [m_nodes].  The arithmetic and comparison nodes ask the node on their
    first input, which may go on forever on a cyclic graph. *)
Fixpoint getOutputType (fuel : nat) (g : Graph) (this : nat) (idx : N)
  : outcome ScriptValueType :=
  match fuel with
  | O => OutOfFuel
  | S fuel' =>
      match m_nodes g !! this with
      | None => Abort
      | Some n =>
          match data n with
          | CompareNode _ | AddNode | MulNode =>
              match getInputNode (m_id n) 0 g with
              | (Some n0, output_idx) => getOutputType fuel' g n0 output_idx
              | (None, _) => Done ScriptValueType.I32
              end
          | SelfNode => Done ScriptValueType.ENTITY
          | ConstNode _ => Done ScriptValueType.FLOAT
          | KeyInputNode => Done ScriptValueType.I32
          | MouseMoveNode => Done ScriptValueType.FLOAT
          | UpdateNode => Done ScriptValueType.FLOAT
          | GetVariableNode m_var =>
              (* [graph.m_variables[m_var].type], line 1313 *)
              match m_variables g !! N.to_nat m_var with
              | Some var => Done (type var)
              | None => Abort
              end
          | GetPropertyNode _ _ => Done ScriptValueType.FLOAT
          | _ => Done ScriptValueType.I32
          end
      end
  end.

(** A generator appends bytes to the blob it is given and may set the
    [m_error] of nodes; it is modelled by the bytes it appends and the graph
    with the updated nodes. *)
Definition Gen : Type := Graph → outcome (list byte * Graph).

Definition emit (bs : list byte) : Gen := λ g, Done (bs, g).

Definition gseq (a b : Gen) : Gen := λ g,
  '(o1, g1) ←o a g;
  '(o2, g2) ←o b g1;
  Done (o1 ++ o2, g2).

Notation "a ;> b" := (gseq a b) (at level 65, right associativity).

Definition with_error (msg : string) (n : Node) : Node :=
  {| m_id := m_id n; m_pos := m_pos n; m_error := msg; data := data n |}.

(** [m_error = msg] in the node at position [this] *)
Definition setError (this : nat) (msg : string) (g : Graph) : Graph :=
  {| m_nodes := alter (with_error msg) this (m_nodes g);
     m_links := m_links g;
     m_variables := m_variables g;
     m_node_counter := m_node_counter g |}.

(** [m_error = msg; return;] *)
Definition fail_with (this : nat) (msg : string) : Gen := λ g,
  Done ([], setError this msg g).

Definition CompareNode_float_op (T : NodeType) : option byte :=
  match T with
  | EQ => Some WasmOp.F32_EQ
  | NEQ => Some WasmOp.F32_NEQ
  | LT => Some WasmOp.F32_LT
  | GT => Some WasmOp.F32_GT
  | GTE => Some WasmOp.F32_GE
  | LTE => Some WasmOp.F32_LE
  | _ => None
  end.

Definition CompareNode_int_op (T : NodeType) : option byte :=
  match T with
  | EQ => Some WasmOp.I32_EQ
  | NEQ => Some WasmOp.I32_NEQ
  | LT => Some WasmOp.I32_LT_S
  | GT => Some WasmOp.I32_GT_S
  | GTE => Some WasmOp.I32_GE_S
  | LTE => Some WasmOp.I32_LE_S
  | _ => None
  end.

(** [blob.write(op)] of the operator a [switch (T)] selects; its [default]
    branch is [ASSERT(false)]. *)
Definition emit_op (op : option byte) : Gen :=
  match op with
  | Some b => emit [b]
  | None => λ _, Abort
  end.

(** The operator of [AddNode] and [MulNode], lines 1171-1174 and 1217-1220:
    the float one exactly when the type on the first input is [FLOAT]. *)
Definition emit_arith (fuel : nat) (n0 : nat) (output_idx : N)
    (float_op int_op : byte) : Gen := λ g,
  t ←o getOutputType fuel g n0 output_idx;
  if t =? ScriptValueType.FLOAT then emit [float_op] g else emit [int_op] g.

(** The tail of [CompareNode::generate], lines 691-720 *)
Definition emit_compare (fuel : nat) (this : nat) (T : NodeType)
    (a : nat) (a_idx : N) (b : nat) (b_idx : N) : Gen := λ g,
  typeA ←o getOutputType fuel g a a_idx;
  typeB ←o getOutputType fuel g b b_idx;
  if negb (typeA =? typeB) then fail_with this "Types do not match" g
  else if typeA =? ScriptValueType.FLOAT
       then emit_op (CompareNode_float_op T) g
       else emit_op (CompareNode_int_op T) g.

Section Compiler.
Context (host : Host).

(** The body of an entry node asked for its function, lines 1109-1112,
    1135-1138, 997-1000 and 1035-1038: no locals, the node on the flow
    output, [END]. *)
Definition entry_body (next : Gen) : Gen :=
  emit [0] ;> next ;> emit [WasmOp.END].

(** [generate] of every node class.  [this] is the position of the node in
    [m_nodes], [output_idx] the third argument of the C++ function. *)
Fixpoint generate (fuel : nat) (this : nat) (output_idx : N) (g : Graph)
  {struct fuel} : outcome (list byte * Graph) :=
  match fuel with
  | O => OutOfFuel
  | S fuel' =>
  match m_nodes g !! this with
  | None => Abort
  | Some n =>
  let self := m_id n in
  (* [o.node->generate(blob, graph, o.idx)] when [o.node] is not null *)
  let follow (o : option nat * N) : Gen :=
    match o with
    | (Some nx, i) => generate fuel' nx i
    | (None, _) => emit []
    end in
  (* [Node::generateNext], lines 173-177 *)
  let generateNext : Gen := λ g, follow (getOutputNode self 0 g) g in
  match data n with
  | CompareNode T =>
      match getInputNode self 0 g, getInputNode self 1 g with
      | (Some a, a_idx), (Some b, b_idx) =>
          (generate fuel' a a_idx ;> generate fuel' b b_idx
           ;> emit_compare fuel' this T a a_idx b b_idx) g
      | _, _ => fail_with this "Missing input" g
      end
  | IfNode =>
      let true_branch := getOutputNode self 0 g in
      let false_branch := getOutputNode self 1 g in
      let cond := getInputNode self 1 g in
      match true_branch.1, false_branch.1 with
      | Some _, Some _ =>
          match cond with
          | (Some c, c_idx) =>
              (generate fuel' c c_idx
               ;> emit [WasmOp.IF; 0x40]
               ;> follow true_branch
               ;> emit [WasmOp.ELSE]
               ;> follow false_branch
               ;> emit [WasmOp.END]) g
          | (None, _) => fail_with this "Missing condition" g
          end
      | _, _ => fail_with this "Missing outputs" g
      end
  | SequenceNode =>
      (fix loop (k : nat) (i : N) (g : Graph) {struct k}
         : outcome (list byte * Graph) :=
         match getOutputNode self i g with
         | (None, _) => Done ([], g)
         | (Some nx, _) =>
             match k with
             | O => OutOfFuel
             | S k' =>
                 (generate fuel' nx 0 ;> loop k' ((i + 1) mod u32_mod)) g
             end
         end) fuel' 0 g
  | SelfNode =>
      emit (WasmOp.GLOBAL_GET :: writeLEB128 WASMGlobals_SELF) g
  | CallNode _ _ => emit [] g
  | SetYawNode =>
      match getInputNode self 1 g, getInputNode self 2 g with
      | (Some o1, i1), (Some o2, i2) =>
          (generate fuel' o1 i1 ;> generate fuel' o2 i2
           ;> emit (WasmOp.CALL
                    :: writeLEB128 (WASMLumixAPI_index SET_YAW_API))
           ;> generateNext) g
      | _, _ => fail_with this "Missing inputs" g
      end
  | ConstNode m_value =>
      emit (WasmOp.F32_CONST :: write_u32 m_value) g
  | SwitchNode m_is_on =>
      if m_is_on then follow (getOutputNode self 0 g) g
      else follow (getOutputNode self 1 g) g
  | KeyInputNode =>
      if output_idx =? 0 then
        (* [case 0] has no [break] and runs on into [case 1] *)
        (entry_body (follow (getOutputNode self 0 g))
         ;> emit [WasmOp.LOCAL_GET; 0]) g
      else if output_idx =? 1 then emit [WasmOp.LOCAL_GET; 0] g
      else Abort
  | MouseMoveNode =>
      if output_idx =? 0 then
        (* [case 0] has no [break] and runs on into [case 1] *)
        (entry_body (follow (getOutputNode self 0 g))
         ;> emit [WasmOp.LOCAL_GET; 0]) g
      else if output_idx =? 1 then emit [WasmOp.LOCAL_GET; 0] g
      else if output_idx =? 2 then emit [WasmOp.LOCAL_GET; 1] g
      else Abort
  | Vec3Node => emit [] g
  | YawToDirNode => emit [] g
  | StartNode => entry_body (follow (getOutputNode self 0 g)) g
  | UpdateNode =>
      if output_idx =? 0 then entry_body (follow (getOutputNode self 0 g)) g
      else emit [WasmOp.LOCAL_GET; 0] g
  | MulNode =>
      match getInputNode self 0 g, getInputNode self 1 g with
      | (Some n0, i0), (Some n1, i1) =>
          (generate fuel' n0 i0 ;> generate fuel' n1 i1
           ;> emit_arith fuel' n0 i0 WasmOp.F32_MUL WasmOp.I32_MUL) g
      | _, _ => fail_with this "Missing inputs" g
      end
  | AddNode =>
      match getInputNode self 0 g, getInputNode self 1 g with
      | (Some n0, i0), (Some n1, i1) =>
          (generate fuel' n0 i0 ;> generate fuel' n1 i1
           ;> emit_arith fuel' n0 i0 WasmOp.F32_ADD WasmOp.I32_ADD) g
      | _, _ => fail_with this "Missing inputs" g
      end
  | SetVariableNode m_var =>
      match getInputNode self 1 g with
      | (Some nv, iv) =>
          (generate fuel' nv iv
           ;> emit (WasmOp.GLOBAL_SET
                    :: writeLEB128 ((m_var + WASMGlobals_USER) mod u32_mod))
           ;> generateNext) g
      | (None, _) => fail_with this "Missing input" g
      end
  | GetVariableNode m_var =>
      emit (WasmOp.GLOBAL_GET
            :: writeLEB128 ((m_var + WASMGlobals_USER) mod u32_mod)) g
  | GetPropertyNode prop cmp_type =>
      match getInputNode self 0 g with
      | (Some o, io) =>
          (generate fuel' o io
           ;> emit (WasmOp.I64_CONST
                    :: writeLEB128 (getPropertyHash host cmp_type prop))
           ;> emit (WasmOp.CALL
                    :: writeLEB128 (WASMLumixAPI_index GET_PROPERTY_FLOAT))) g
      | (None, _) => fail_with this "Missing entity input" g
      end
  | SetPropertyNode prop value cmp_type =>
      let o2 := getInputNode self 2 g in
      match getInputNode self 1 g with
      | (Some o1, i1) =>
          (generate fuel' o1 i1
           ;> emit (WasmOp.I64_CONST
                    :: writeLEB128 (getPropertyHash host cmp_type prop))
           ;> match o2 with
              | (Some n2, i2) => generate fuel' n2 i2
              | (None, _) =>
                  emit (WasmOp.F32_CONST :: write_u32 (atof_f32 host value))
              end
           ;> emit (WasmOp.CALL
                    :: writeLEB128 (WASMLumixAPI_index SET_PROPERTY_FLOAT))
           ;> generateNext) g
      | (None, _) => fail_with this "Missing entity input" g
      end
  end end end.

End Compiler.

(** ** Module emitter *)

(** [WASMWriter::writeString], lines 395-399 *)
Definition writeString (value : string) : list byte :=
  let len := N.of_nat (length (c_str value)) in
  writeLEB128 len ++ c_str value.

(** [WASMWriter::writeSection], lines 401-408, given the bytes [tmp] that the
    callback wrote *)
Definition writeSection (section : WASMSection) (tmp : list byte) : list byte :=
  WASMSection_byte section
  :: writeLEB128 (to_u32 (N.of_nat (length tmp))) ++ tmp.

Module WasmExport.
(** [WASMWriter::Export], lines 410-416; [num_args] is the length of
    [args]. *)
Record t := {
  node : nat;
  name : string;
  args : list WASMType
}.
End WasmExport.

Module WasmGlobal.
(** [WASMWriter::Global], lines 418-422 *)
Record t := {
  export_name : string;
  type : WASMType
}.
End WasmGlobal.

Module WasmImport.
(** [WASMWriter::Import], lines 424-431; [num_args] is the length of
    [args]. *)
Record t := {
  module_name : string;
  field_name : string;
  args : list WASMType;
  ret_type : WASMType
}.
End WasmImport.

Module WASMWriter.

Record t := {
  m_imports : list WasmImport.t;
  m_globals : list WasmGlobal.t;
  m_exports : list WasmExport.t
}.

Definition empty : t := {| m_imports := []; m_globals := []; m_exports := [] |}.

(** [addFunctionImport], lines 260-268.  The [ASSERT] on the number of
    arguments holds at each of its calls (at most three arguments). *)
Definition addFunctionImport (module_name field_name : string)
    (ret_type : WASMType) (args : list WASMType) (w : t) : t :=
  {| m_imports := m_imports w ++ [{| WasmImport.module_name := module_name;
                                     WasmImport.field_name := field_name;
                                     WasmImport.args := args;
                                     WasmImport.ret_type := ret_type |}];
     m_globals := m_globals w;
     m_exports := m_exports w |}.

(** [addFunctionExport], lines 270-277 *)
Definition addFunctionExport (name : string) (node : nat)
    (args : list WASMType) (w : t) : t :=
  {| m_imports := m_imports w;
     m_globals := m_globals w;
     m_exports := m_exports w ++ [{| WasmExport.node := node;
                                     WasmExport.name := name;
                                     WasmExport.args := args |}] |}.

(** [addGlobal], lines 279-283 *)
Definition addGlobal (type : WASMType) (export_name : string) (w : t) : t :=
  {| m_imports := m_imports w;
     m_globals := m_globals w ++ [{| WasmGlobal.export_name := export_name;
                                     WasmGlobal.type := type |}];
     m_exports := m_exports w |}.

(** The signature of an import, lines 293-304 *)
Definition import_signature (import : WasmImport.t) : list byte :=
  [0x60; N.of_nat (length (WasmImport.args import)) mod 256]
  ++ map WASMType_byte (WasmImport.args import)
  ++ match WasmImport.ret_type import with
     | VOID => [0]
     | ret_type => [1; WASMType_byte ret_type]
     end.

(** The signature of an export, lines 308-313 *)
Definition export_signature (e : WasmExport.t) : list byte :=
  [0x60; N.of_nat (length (WasmExport.args e)) mod 256]
  ++ map WASMType_byte (WasmExport.args e)
  ++ [0].

(** The callback of the type section, lines 289-315 *)
Definition type_section (w : t) : list byte :=
  writeLEB128 (N.of_nat (length (m_imports w) + length (m_exports w)))
  ++ mjoin (map import_signature (m_imports w))
  ++ mjoin (map export_signature (m_exports w)).

(** The callback of the import section, lines 317-326.  [&import -
    m_imports.begin()] is the position of [import] in [m_imports]. *)
Definition import_section (w : t) : list byte :=
  writeLEB128 (N.of_nat (length (m_imports w)))
  ++ mjoin (imap (λ i import,
                    writeString (WasmImport.module_name import)
                    ++ writeString (WasmImport.field_name import)
                    ++ [WASMExternalType_byte EXT_FUNCTION]
                    ++ writeLEB128 (N.of_nat i))
              (m_imports w)).

(** The callback of the function section, lines 328-334 *)
Definition function_section (w : t) : list byte :=
  writeLEB128 (N.of_nat (length (m_exports w)))
  ++ mjoin (imap (λ i (func : WasmExport.t),
                    writeLEB128 (N.of_nat (length (m_imports w) + i)))
              (m_exports w)).

(** One global, lines 340-363; a global of type [VOID] is an
    [ASSERT(false)]. *)
Definition global_entry (global : WasmGlobal.t) : outcome (list byte) :=
  init ←o match WasmGlobal.type global with
          | I32 => Done [WasmOp.I32_CONST; 0]
          | I64 => Done [WasmOp.I64_CONST; 0]
          | F32 => Done (WasmOp.F32_CONST :: write_u32 0)
          | F64 => Done (WasmOp.F64_CONST :: write_u64 0)
          | VOID => Abort
          end;
  Done ([WASMType_byte (WasmGlobal.type global); 1] ++ init ++ [WasmOp.END]).

Fixpoint global_entries (globals : list WasmGlobal.t) : outcome (list byte) :=
  match globals with
  | [] => Done []
  | global :: rest =>
      e ←o global_entry global;
      es ←o global_entries rest;
      Done (e ++ es)
  end.

(** The callback of the global section, lines 336-365 *)
Definition global_section (w : t) : outcome (list byte) :=
  es ←o global_entries (m_globals w);
  Done (writeLEB128 (N.of_nat (length (m_globals w))) ++ es).

(** The callback of the export section, lines 367-380 *)
Definition export_section (w : t) : list byte :=
  writeLEB128 (N.of_nat (length (m_exports w) + length (m_globals w)))
  ++ mjoin (imap (λ i e,
                    writeString (WasmExport.name e)
                    ++ [WASMExternalType_byte EXT_FUNCTION]
                    ++ writeLEB128 (N.of_nat (length (m_imports w) + i)))
              (m_exports w))
  ++ mjoin (imap (λ i g,
                    writeString (WasmGlobal.export_name g)
                    ++ [WASMExternalType_byte EXT_GLOBAL]
                    ++ writeLEB128 (N.of_nat i))
              (m_globals w)).

Section Write.
Context (host : Host).

(** The loop of the code section, lines 386-391: the body of each export is
    generated by its node with selector [0] into an empty [func_blob]. *)
Fixpoint code_entries (fuel : nat) (exports : list WasmExport.t) (g : Graph)
  : outcome (list byte * Graph) :=
  match exports with
  | [] => Done ([], g)
  | code :: rest =>
      '(func_blob, g1) ←o generate host fuel (WasmExport.node code) 0 g;
      '(bs, g2) ←o code_entries fuel rest g1;
      Done (writeLEB128 (to_u32 (N.of_nat (length func_blob)))
            ++ func_blob ++ bs, g2)
  end.

(** The callback of the code section, lines 382-392 *)
Definition code_section (fuel : nat) (w : t) (g : Graph)
  : outcome (list byte * Graph) :=
  '(es, g') ←o code_entries fuel (m_exports w) g;
  Done (writeLEB128 (N.of_nat (length (m_exports w))) ++ es, g').

(** [WASMWriter::write], lines 285-393 *)
Definition write (fuel : nat) (w : t) (g : Graph)
  : outcome (list byte * Graph) :=
  globals ←o global_section w;
  '(code, g') ←o code_section fuel w g;
  Done (write_u32 0x6d736100
        ++ write_u32 1
        ++ writeSection SEC_TYPE (type_section w)
        ++ writeSection SEC_IMPORT (import_section w)
        ++ writeSection SEC_FUNCTION (function_section w)
        ++ writeSection SEC_GLOBAL globals
        ++ writeSection SEC_EXPORT (export_section w)
        ++ writeSection SEC_CODE code, g').

End Write.

End WASMWriter.

(** ** Compiler driver *)

Section Driver.
Context (host : Host).

(** [Graph::addExport], lines 471-480: the first node of the type, if any *)
Definition addExport (node_type : NodeType) (name : string)
    (args : list WASMType) (g : Graph) (writer : WASMWriter.t)
  : WASMWriter.t :=
  match find_index (λ n, bool_decide (getType (data n) = node_type))
          (m_nodes g) with
  | Some n => WASMWriter.addFunctionExport name n args writer
  | None => writer
  end.

(** [Graph::addImport], lines 482-486 *)
Definition addImport (module_name field_name : string) (ret_type : WASMType)
    (args : list WASMType) (writer : WASMWriter.t) : WASMWriter.t :=
  WASMWriter.addFunctionImport module_name field_name ret_type args writer.

(** The loop of lines 504-514; a variable that is neither [I32] nor [FLOAT]
    is an [ASSERT(false)]. *)
Fixpoint addVariableGlobals (vars : list GraphVariable)
    (writer : WASMWriter.t) : outcome WASMWriter.t :=
  match vars with
  | [] => Done writer
  | var :: rest =>
      if type var =? ScriptValueType.I32
      then addVariableGlobals rest (WASMWriter.addGlobal I32 (name var) writer)
      else if type var =? ScriptValueType.FLOAT
      then addVariableGlobals rest (WASMWriter.addGlobal F32 (name var) writer)
      else Abort
  end.

Definition clearErrors (g : Graph) : Graph :=
  {| m_nodes := map (with_error EmptyString) (m_nodes g);
     m_links := m_links g;
     m_variables := m_variables g;
     m_node_counter := m_node_counter g |}.

(** The writer of [Graph::generate], lines 493-514 *)
Definition configureWriter (g : Graph) : outcome WASMWriter.t :=
  let writer := WASMWriter.empty in
  let writer := addExport UPDATE "update" [F32] g writer in
  let writer := addExport MOUSE_MOVE "onMouseMove" [F32; F32] g writer in
  let writer := addExport KEY_INPUT "onKeyEvent" [I32] g writer in
  let writer := addExport START "start" [] g writer in
  let writer := addImport "LumixAPI" "setYaw" VOID [I32; F32] writer in
  let writer :=
    addImport "LumixAPI" "setPropertyFloat" VOID [I32; I64; F32] writer in
  let writer :=
    addImport "LumixAPI" "getPropertyFloat" F32 [I32; I64] writer in
  let writer := WASMWriter.addGlobal I32 "self" writer in
  addVariableGlobals (m_variables g) writer.

(** [Graph::generate], lines 488-519 *)
Definition Graph_generate (fuel : nat) (g : Graph)
  : outcome (list byte * Graph) :=
  let g := clearErrors g in
  writer ←o configureWriter g;
  '(module, g') ←o WASMWriter.write host fuel writer g;
  Done (resource_header host ++ module, g').

(** ** Persistence *)

(** ['_LVS'], line 469: the four characters packed into one [u32], the first
    one in the most significant byte. *)
Definition MAGIC : N := 0x5F4C5653.

(** [serialize] of every node class: the data members of the class *)
Definition Node_serialize (d : NodeData) : outcome (list byte) :=
  match d with
  | CallNode component function =>
      match component, function with
      | Some cmp, Some func =>
          match getComponentName host cmp with
          | Some cmp_name =>
              Done (write_u64 (RuntimeHash host cmp_name)
                    ++ stream_writeString host func)
          | None => Abort
          end
      | _, _ => Abort
      end
  | ConstNode m_value => Done (write_u32 m_value)
  | SwitchNode m_is_on => Done (write_bool m_is_on)
  | SetVariableNode m_var => Done (write_u32 m_var)
  | GetVariableNode m_var => Done (write_u32 m_var)
  | GetPropertyNode prop cmp_type =>
      match getComponentName host cmp_type with
      | Some cmp_name =>
          Done (stream_writeString host prop
                ++ stream_writeString host cmp_name)
      | None => Abort
      end
  | SetPropertyNode prop value cmp_type =>
      match getComponentName host cmp_type with
      | Some cmp_name =>
          Done (stream_writeString host prop
                ++ stream_writeString host value
                ++ stream_writeString host cmp_name)
      | None => Abort
      end
  | _ => Done []
  end.

(** [deserialize] of every node class, applied to the node that
    [createNode] has just built *)
Definition Node_deserialize (d : NodeData) (blob : list byte)
  : NodeData * list byte :=
  match d with
  | CallNode component function =>
      let '(cmp_name_hash, blob) := read_u64 blob in
      let '(func_name, blob) := stream_readString host blob in
      let cmp_type := getComponentTypeFromHash host cmp_name_hash in
      match getComponentName host cmp_type with
      | Some _ =>
          if bool_decide (func_name ∈ getComponentFunctions host cmp_type)
          then (CallNode (Some cmp_type) (Some func_name), blob)
          else (CallNode (Some cmp_type) function, blob)
      | None => (CallNode None function, blob)
      end
  | ConstNode _ =>
      let '(m_value, blob) := read_u32 blob in (ConstNode m_value, blob)
  | SwitchNode _ =>
      let '(m_is_on, blob) := read_bool blob in (SwitchNode m_is_on, blob)
  | SetVariableNode _ =>
      let '(m_var, blob) := read_u32 blob in (SetVariableNode m_var, blob)
  | GetVariableNode _ =>
      let '(m_var, blob) := read_u32 blob in (GetVariableNode m_var, blob)
  | GetPropertyNode _ _ =>
      let '(prop, blob) := stream_readString host blob in
      let '(cmp_name, blob) := stream_readString host blob in
      (GetPropertyNode (copyString 64 prop) (getComponentType host cmp_name),
       blob)
  | SetPropertyNode _ _ _ =>
      let '(prop, blob) := stream_readString host blob in
      let '(value, blob) := stream_readString host blob in
      let '(cmp_name, blob) := stream_readString host blob in
      (SetPropertyNode (copyString 64 prop) (copyString 64 value)
         (getComponentType host cmp_name), blob)
  | d => (d, blob)
  end.

Definition serialize_variable (var : GraphVariable) : list byte :=
  stream_writeString host (name var) ++ write_u32 (type var).

Definition serialize_link (link : NodeEditorLink) : list byte :=
  write_u32 (from link) ++ write_u32 (to link).

Definition serialize_node (node : Node) : outcome (list byte) :=
  payload ←o Node_serialize (data node);
  Done (write_u32 (NodeType_to_u32 (getType (data node)))
        ++ write_u32 (m_id node)
        ++ write_u32 (m_pos node).1 ++ write_u32 (m_pos node).2
        ++ payload).

Fixpoint serialize_nodes (nodes : list Node) : outcome (list byte) :=
  match nodes with
  | [] => Done []
  | node :: rest =>
      b ←o serialize_node node;
      bs ←o serialize_nodes rest;
      Done (b ++ bs)
  end.

(** [Graph::serialize], lines 566-590 *)
Definition serialize (g : Graph) : outcome (list byte) :=
  nodes ←o serialize_nodes (m_nodes g);
  Done (write_u32 MAGIC
        ++ write_u32 0
        ++ write_u32 (m_node_counter g)
        ++ write_u32 (N.of_nat (length (m_variables g)))
        ++ mjoin (map serialize_variable (m_variables g))
        ++ write_u32 (N.of_nat (length (m_links g)))
        ++ mjoin (map serialize_link (m_links g))
        ++ write_u32 (N.of_nat (length (m_nodes g)))
        ++ nodes).

(** The loop of lines 539-543 *)
Fixpoint deserialize_variables (count : nat) (blob : list byte)
    (vars : list GraphVariable) : list GraphVariable * list byte :=
  match count with
  | O => (vars, blob)
  | S count' =>
      let '(var_name, blob) := stream_readString host blob in
      let '(var_type, blob) := read_u32 blob in
      deserialize_variables count' blob
        (vars ++ [{| name := var_name; type := var_type |}])
  end.

(** The loop of lines 547-550 *)
Fixpoint deserialize_links (count : nat) (blob : list byte)
    (links : list NodeEditorLink) : list NodeEditorLink * list byte :=
  match count with
  | O => (links, blob)
  | S count' =>
      let '(link_from, blob) := read_u32 blob in
      let '(link_to, blob) := read_u32 blob in
      deserialize_links count' blob
        (links ++ [{| from := link_from; to := link_to |}])
  end.

(** The loop of lines 554-560. [createNode] returns a null pointer for a
    type outside of the enumeration, and the next line dereferences it. *)
Fixpoint deserialize_nodes (count : nat) (blob : list byte) (g : Graph)
  : outcome Graph :=
  match count with
  | O => Done g
  | S count' =>
      let '(node_type, blob) := read_u32 blob in
      match NodeType_of_u32 node_type with
      | None => Abort
      | Some t =>
          let n := length (m_nodes g) in
          let g := createNode t g in
          let '(id, blob) := read_u32 blob in
          let '(pos_x, blob) := read_u32 blob in
          let '(pos_y, blob) := read_u32 blob in
          let '(d, blob) := Node_deserialize (default_data t) blob in
          deserialize_nodes count' blob
            {| m_nodes :=
                 alter (λ node, {| m_id := id; m_pos := (pos_x, pos_y);
                                   m_error := m_error node; data := d |})
                   n (m_nodes g);
               m_links := m_links g;
               m_variables := m_variables g;
               m_node_counter := m_node_counter g |}
      end
  end.

(** [Graph::deserialize], lines 530-562: the result of the function and the
    graph it leaves behind. *)
Definition deserialize (blob : list byte) (g : Graph)
  : outcome (bool * Graph) :=
  let '(magic, blob) := read_u32 blob in
  if negb (magic =? MAGIC) then Done (false, g) else
  let '(version, blob) := read_u32 blob in
  if negb (version =? 0) then Done (false, g) else
  let '(node_counter, blob) := read_u32 blob in
  let '(var_count, blob) := read_u32 blob in
  let '(variables, blob) :=
    deserialize_variables (N.to_nat var_count) blob (m_variables g) in
  let '(link_count, blob) := read_u32 blob in
  let '(links, blob) :=
    deserialize_links (N.to_nat link_count) blob (m_links g) in
  let '(node_count, blob) := read_u32 blob in
  g' ←o deserialize_nodes (N.to_nat node_count) blob
          {| m_nodes := m_nodes g;
             m_links := links;
             m_variables := variables;
             m_node_counter := node_counter |};
  Done (true, g').

(** [Graph::clear], lines 521-528 *)
Definition clear (g : Graph) : Graph :=
  {| m_nodes := []; m_links := []; m_variables := [];
     m_node_counter := m_node_counter g |}.

(** [AssetPlugin::createResource], lines 2008-2012 *)
Definition createResource : outcome (list byte) :=
  serialize (addNode UpdateNode empty_graph).

End Driver.

(** [Graph::load], lines 454-467, given what [fs.getContentSync] returned:
    [None] when the file could not be read. *)
Definition load (host : Host) (content : option (list byte)) (g : Graph)
  : outcome (bool * Graph) :=
  match content with
  | None => Done (false, g)
  | Some blob =>
      '(ok, g') ←o deserialize host blob g;
      if ok then Done (true, g') else Done (false, g')
  end.

(** ** A reader for the sections of a module

    The layout of a module is stated with the help of a reader that splits
    the bytes after the module header into sections: a tag byte, the length
    of the body as a LEB128 number, the body. *)
Definition read_leb (bytes : list byte) : option (N * list byte) :=
  match decodeSLEB128 bytes with
  | Some (v, rest) => if (v <? 0)%Z then None else Some (Z.to_N v, rest)
  | None => None
  end.

Fixpoint read_sections (fuel : nat) (bytes : list byte)
  : option (list (byte * list byte)) :=
  match bytes with
  | [] => Some []
  | tag :: bytes =>
      match fuel with
      | O => None
      | S fuel' =>
          match read_leb bytes with
          | None => None
          | Some (len, bytes) =>
              if (length bytes <? N.to_nat len)%nat then None
              else
                sections ← read_sections fuel' (drop (N.to_nat len) bytes);
                Some ((tag, take (N.to_nat len) bytes) :: sections)
          end
      end
  end.

(** [count] items, each read by [item] *)
Fixpoint read_items {A} (item : list byte → option (A * list byte))
    (count : nat) (bytes : list byte) : option (list A * list byte) :=
  match count with
  | O => Some ([], bytes)
  | S count' =>
      '(x, bytes) ← item bytes;
      '(xs, bytes) ← read_items item count' bytes;
      Some (x :: xs, bytes)
  end.

(** A vector: the number of items, then the items *)
Definition read_vec {A} (item : list byte → option (A * list byte))
    (bytes : list byte) : option (list A * list byte) :=
  '(count, bytes) ← read_leb bytes;
  read_items item (N.to_nat count) bytes.

(** A name: its length, then its bytes *)
Definition read_name (bytes : list byte) : option (list byte * list byte) :=
  '(len, bytes) ← read_leb bytes;
  if (length bytes <? N.to_nat len)%nat then None
  else Some (take (N.to_nat len) bytes, drop (N.to_nat len) bytes).


(** ** Sequences of graph edits *)

Inductive GraphOp :=
| OpAddNode (d : NodeData)
| OpRemoveNode (node : nat).

Definition apply_op (op : GraphOp) (g : Graph) : option Graph :=
  match op with
  | OpAddNode d => Some (addNode d g)
  | OpRemoveNode node => removeNode node g
  end.

Fixpoint apply_ops (ops : list GraphOp) (g : Graph) : option Graph :=
  match ops with
  | [] => Some g
  | op :: ops' =>
      match apply_op op g with
      | Some g' => apply_ops ops' g'
      | None => None
      end
  end.

Definition is_add (op : GraphOp) : bool :=
  match op with OpAddNode _ => true | OpRemoveNode _ => false end.

(** The number of nodes added by a sequence of edits *)
Definition additions (ops : list GraphOp) : nat :=
  length (filter (λ op, is_add op) ops).

(** ** Concrete hosts and graphs used in the examples *)

Definition string_bytes (s : string) : list byte :=
  map N_of_ascii (String.list_ascii_of_string s).

Definition bytes_string (bs : list byte) : string :=
  String.string_of_list_ascii (map ascii_of_N bs).

(** A host whose strings are stored with a 32-bit length in front, whose
    resource header is empty and whose reflection registry has no
    component. *)
Definition test_host : Host :=
  {| stream_writeString s :=
       write_u32 (N.of_nat (length (string_bytes s))) ++ string_bytes s;
     stream_readString blob :=
       let '(len, blob) := read_u32 blob in
       let '(bs, blob) := read_bytes (N.to_nat len) blob in
       (bytes_string bs, blob);
     resource_header := [];
     getComponentName _ := None;
     getComponentType _ := INVALID_COMPONENT_TYPE;
     getComponentTypeFromHash _ := INVALID_COMPONENT_TYPE;
     getComponentFunctions _ := [];
     RuntimeHash _ := 0;
     getPropertyHash _ _ := 0;
     atof_f32 _ := 0 |}.

Definition mkNode (id : N) (d : NodeData) : Node :=
  {| m_id := id; m_pos := (0, 0); m_error := EmptyString; data := d |}.

(** A link from output pin [from_pin] of node [from_id] to input pin
    [to_pin] of node [to_id] *)
Definition mkLink (from_id from_pin to_id to_pin : N) : NodeEditorLink :=
  {| from := N.lor from_id (N.shiftl from_pin 16);
     to := N.lor to_id (N.shiftl to_pin 16) |}.

(** A link has an endpoint on the node with identifier [node_id]. *)
Definition link_on (node_id : N) (l : NodeEditorLink) : Prop :=
  getFromNode l = node_id ∨ getToNode l = node_id.

Global Instance link_on_dec node_id l : Decision (link_on node_id l).
Proof. unfold link_on. apply _. Defined.

(** The scenario of the specification: nodes A, B, C with identifiers 1, 2,
    3 and links A→B, B→C, A→C. *)
Definition abc_graph : Graph :=
  {| m_nodes := [mkNode 1 StartNode; mkNode 2 SequenceNode; mkNode 3 SequenceNode];
     m_links := [mkLink 1 0 2 0; mkLink 2 0 3 0; mkLink 1 1 3 0];
     m_variables := [];
     m_node_counter := 3 |}.

(** The identifiers of the nodes of [g] are pairwise distinct and fit in 15
    bits. *)
Definition ids_fit_15_bits (g : Graph) : Prop :=
  NoDup (m_id <$> m_nodes g) ∧ ∀ n, n ∈ m_nodes g → m_id n ≤ 32767.

(** What [Graph::addNode] maintains: the identifiers are pairwise distinct
    and lie between 1 and the counter. *)
Definition ids_below_counter (g : Graph) : Prop :=
  NoDup (m_id <$> m_nodes g)
  ∧ Forall (λ n, 1 ≤ m_id n ≤ m_node_counter g) (m_nodes g).

(** The diagnostic of a statement node whose value input is missing *)
Definition missing_input_message (d : NodeData) : string :=
  match d with
  | SetYawNode => "Missing inputs"
  | _ => "Missing input"
  end.

(** A required value input of a [SetYawNode] or [SetVariableNode] is not
    connected. *)
Definition value_input_missing (self_id : N) (d : NodeData) (g : Graph)
  : Prop :=
  match d with
  | SetYawNode =>
      (getInputNode self_id 1 g).1 = None ∨ (getInputNode self_id 2 g).1 = None
  | SetVariableNode _ => (getInputNode self_id 1 g).1 = None
  | _ => False
  end.

(** An update node (identifier 1) whose flow output leads to a set-yaw node
    (identifier 2) without value inputs, which in turn leads to a
    set-variable node (identifier 3) fed by a constant (identifier 4). *)
Definition faulty_yaw_graph : Graph :=
  {| m_nodes := [mkNode 1 UpdateNode; mkNode 2 SetYawNode;
                 mkNode 3 (SetVariableNode 0); mkNode 4 (ConstNode 0)];
     m_links := [mkLink 1 0 2 0; mkLink 2 0 3 0; mkLink 4 0 3 1];
     m_variables := [{| name := "v"; type := ScriptValueType.FLOAT |}];
     m_node_counter := 4 |}.

(** A graph with a single key-input node *)
Definition key_input_graph : Graph := addNode KeyInputNode empty_graph.

(** A graph with a single mouse-move node *)
Definition mouse_move_graph : Graph := addNode MouseMoveNode empty_graph.

(** The operator instructions of the arithmetic and comparison nodes *)
Definition operator_instructions : list byte :=
  [WasmOp.I32_EQ; WasmOp.I32_NEQ; WasmOp.I32_LT_S; WasmOp.I32_GT_S;
   WasmOp.I32_LE_S; WasmOp.I32_GE_S; WasmOp.F32_EQ; WasmOp.F32_NEQ;
   WasmOp.F32_LT; WasmOp.F32_GT; WasmOp.F32_LE; WasmOp.F32_GE;
   WasmOp.I32_ADD; WasmOp.I32_MUL; WasmOp.F32_ADD; WasmOp.F32_MUL].

(** The claim of the specification about a binary node at position [this]
    whose operands have different types: after [generate] the node carries
    a diagnostic, and the bytes appended end with an operator
    instruction. *)
Definition mismatch_claim (host : Host) (fuel : nat) (g : Graph) (this : nat)
  : Prop :=
  ∃ code op g' n',
    generate host fuel this 0 g = Done (code ++ [op], g')
    ∧ op ∈ operator_instructions
    ∧ m_nodes g' !! this = Some n'
    ∧ m_error n' ≠ EmptyString.

(** A binary node (identifier 3) whose first input is a float constant
    (identifier 1, value 2.5) and whose second input is the key of a
    key-input node (identifier 2, output pin 1), an [I32]. *)
Definition mismatch_graph (d : NodeData) : Graph :=
  {| m_nodes := [mkNode 1 (ConstNode 0x40200000); mkNode 2 KeyInputNode;
                 mkNode 3 d];
     m_links := [mkLink 1 0 3 0; mkLink 2 1 3 1];
     m_variables := [];
     m_node_counter := 3 |}.

(** A graph with one variable and two get-variable nodes: the first reads
    variable 0, the second has the stored index 7. *)
Definition get_variable_graph : Graph :=
  {| m_nodes := [mkNode 1 (GetVariableNode 0); mkNode 2 (GetVariableNode 7)];
     m_links := [];
     m_variables := [{| name := "speed"; type := ScriptValueType.FLOAT |}];
     m_node_counter := 2 |}.


(** The global that [Graph::generate] declares for a variable *)
Definition variable_global (var : GraphVariable) : WasmGlobal.t :=
  {| WasmGlobal.export_name := name var;
     WasmGlobal.type :=
       if type var =? ScriptValueType.I32 then I32 else F32 |}.

(** ** What a graph must satisfy to be saved and loaded back *)

Section Persistable.
Context (host : Host).

(** The payload of a node class survives saving and loading. *)
Definition payload_roundtrips (d : NodeData) : Prop :=
  ∀ payload rest,
    Node_serialize host d = Done payload →
    Node_deserialize host (default_data (getType d)) (payload ++ rest)
    = (d, rest).

(** A string survives [writeString] and [readString]. *)
Definition string_roundtrips (s : string) : Prop :=
  ∀ rest,
    stream_readString host (stream_writeString host s ++ rest) = (s, rest).

(** Every field that is stored in a [u32] holds a 32-bit value, the names of
    the variables and the payloads of the nodes survive the stream. *)
Record persistable (g : Graph) : Prop := {
  persistable_counter : m_node_counter g < u32_mod;
  persistable_variables :
    Forall (λ var, string_roundtrips (name var) ∧ type var < u32_mod)
      (m_variables g);
  persistable_links :
    Forall (λ l, from l < u32_mod ∧ to l < u32_mod) (m_links g);
  persistable_nodes :
    Forall (λ n, m_id n < u32_mod ∧ (m_pos n).1 < u32_mod
                 ∧ (m_pos n).2 < u32_mod ∧ payload_roundtrips (data n))
      (m_nodes g);
  persistable_sizes :
    N.of_nat (length (m_variables g)) < u32_mod
    ∧ N.of_nat (length (m_links g)) < u32_mod
    ∧ N.of_nat (length (m_nodes g)) < u32_mod
}.

End Persistable.

(** ** Further readers used to state properties of the written bytes *)

(** The reference unsigned-LEB128 decoder, after the decoding algorithm of
    the DWARF standard (Appendix C, "Algorithm to decode an unsigned LEB128
    number"), with a 64-bit result word: the loop of the signed decoder
    without the sign extension. *)
Definition decodeULEB128 (bytes : list byte) : option (N * list byte) :=
  match decodeSLEB128_loop bytes 0 0 with
  | None => None
  | Some (result, _, _, rest) => Some (result, rest)
  end.

(** The result [r] of a generator run on [g], if there is one, leaves a
    graph that differs from [g] at most in the [m_error] of nodes. *)
Definition keeps (g : Graph) (r : outcome (list byte * Graph)) : Prop :=
  ∀ out g', r = Done (out, g') → clearErrors g' = clearErrors g.

(** The four entry points of [Graph::generate], lines 494-497: the node
    type, the name of the export and the parameter types. *)
Definition entry_points : list (NodeType * string * list WASMType) :=
  [(UPDATE, "update", [F32]);
   (MOUSE_MOVE, "onMouseMove", [F32; F32]);
   (KEY_INPUT, "onKeyEvent", [I32]);
   (START, "start", [])].

(** A graph with two update nodes behind a start node and a variable of
    type [ENTITY]. *)
Definition two_updates_graph : Graph :=
  {| m_nodes := [mkNode 1 StartNode; mkNode 2 UpdateNode; mkNode 3 UpdateNode];
     m_links := [];
     m_variables := [{| name := "target"; type := ScriptValueType.ENTITY |}];
     m_node_counter := 3 |}.

(** The types of variables that [Graph::generate] can declare a global for,
    lines 505-513 *)
Definition global_type_supported (var : GraphVariable) : Prop :=
  type var = ScriptValueType.I32 ∨ type var = ScriptValueType.FLOAT.

(** The export that [Graph::addExport] registers for an entry point: bound
    to the first node of the type, none if there is no such node. *)
Definition entry_export (g : Graph)
    (entry : NodeType * string * list WASMType) : list WasmExport.t :=
  let '(node_type, entry_name, args) := entry in
  match find_index (λ n, bool_decide (getType (data n) = node_type))
          (m_nodes g) with
  | Some i => [{| WasmExport.node := i; WasmExport.name := entry_name;
                  WasmExport.args := args |}]
  | None => []
  end.

(** A graph with a start node and two update nodes, without variables *)
Definition entry_graph : Graph :=
  {| m_nodes := [mkNode 1 StartNode; mkNode 2 UpdateNode; mkNode 3 UpdateNode];
     m_links := [];
     m_variables := [];
     m_node_counter := 3 |}.

(** A byte that counts the bytes that follow it, and those bytes *)
Definition read_counted (bytes : list byte) : option (list byte * list byte) :=
  match bytes with
  | [] => None
  | count :: bytes =>
      if (length bytes <? N.to_nat count)%nat then None
      else Some (take (N.to_nat count) bytes, drop (N.to_nat count) bytes)
  end.

(** A function type: the tag [0x60], the parameter types, the result
    types *)
Definition read_functype (bytes : list byte)
  : option (list byte * list byte * list byte) :=
  match bytes with
  | [] => None
  | tag :: bytes =>
      if tag =? 0x60 then
        '(params, bytes) ← read_counted bytes;
        '(results, bytes) ← read_counted bytes;
        Some (params, results, bytes)
      else None
  end.

(** An entry of the import section: module name, field name, kind, index *)
Definition read_import (bytes : list byte)
  : option (list byte * list byte * byte * N * list byte) :=
  '(module_name, bytes) ← read_name bytes;
  '(field_name, bytes) ← read_name bytes;
  match bytes with
  | [] => None
  | kind :: bytes =>
      '(index, bytes) ← read_leb bytes;
      Some (module_name, field_name, kind, index, bytes)
  end.

(** The number of bytes that follow a constant instruction *)
Definition const_immediate_size (op : byte) : option nat :=
  if (op =? WasmOp.I32_CONST) || (op =? WasmOp.I64_CONST) then Some 1%nat
  else if op =? WasmOp.F32_CONST then Some 4%nat
  else if op =? WasmOp.F64_CONST then Some 8%nat
  else None.

(** An entry of the global section: value type, mutability, a constant
    instruction with its immediate, [END] *)
Definition read_global (bytes : list byte)
  : option (byte * byte * byte * list byte * list byte) :=
  match bytes with
  | value_type :: mutability :: op :: bytes =>
      size ← const_immediate_size op;
      if (length bytes <? S size)%nat then None
      else if negb (default 0 (bytes !! size) =? WasmOp.END) then None
      else Some (value_type, mutability, op, take size bytes,
                 drop (S size) bytes)
  | _ => None
  end.

(** The signature of an import and of an export as parameter and result
    types *)
Definition import_functype (import : WasmImport.t) : list byte * list byte :=
  (WASMType_byte <$> WasmImport.args import,
   match WasmImport.ret_type import with
   | VOID => []
   | ret_type => [WASMType_byte ret_type]
   end).

Definition export_functype (e : WasmExport.t) : list byte * list byte :=
  (WASMType_byte <$> WasmExport.args e, []).

(** The constant instruction that initialises a global of a type *)
Definition zero_initializer (t : WASMType) : byte * list byte :=
  match t with
  | I32 => (WasmOp.I32_CONST, [0])
  | I64 => (WasmOp.I64_CONST, [0])
  | F32 => (WasmOp.F32_CONST, [0; 0; 0; 0])
  | F64 => (WasmOp.F64_CONST, [0; 0; 0; 0; 0; 0; 0; 0])
  | VOID => (0, [])
  end.

(** Both endpoints of every link of [g] name a node of [g]. *)
Definition links_resolve (g : Graph) : Prop :=
  ∀ l, l ∈ m_links g →
    is_Some (getNode (N.land (from l) 0x7fff) g)
    ∧ is_Some (getNode (N.land (to l) 0x7fff) g).

(** The code of the nodes at the positions [children], one after the other,
    each one asked with the argument [0] as the loop of
    [SequenceNode::generate] does, line 796. *)
Fixpoint generate_all (host : Host) (fuel : nat) (children : list nat) : Gen :=
  match children with
  | [] => emit []
  | c :: children' =>
      generate host fuel c 0 ;> generate_all host fuel children'
  end.

(** The node classes whose [generate] starts with the code of the node on
    the input pin 0: the arithmetic and the comparison nodes. *)
Definition is_binary (d : NodeData) : bool :=
  match d with
  | AddNode | MulNode | CompareNode _ => true
  | _ => false
  end.

(** An if node (identifier 1) whose condition is a constant (identifier 2)
    and whose branches lead to two set-variable nodes (identifiers 3 and 4)
    that store the same constant in the variables 0 and 1. *)
Definition if_graph : Graph :=
  {| m_nodes := [mkNode 1 IfNode; mkNode 2 (ConstNode 0x3f800000);
                 mkNode 3 (SetVariableNode 0); mkNode 4 (SetVariableNode 1)];
     m_links := [mkLink 2 0 1 1; mkLink 1 0 3 0; mkLink 1 1 4 0;
                 mkLink 2 0 3 1; mkLink 2 0 4 1];
     m_variables := [{| name := "a"; type := ScriptValueType.FLOAT |};
                     {| name := "b"; type := ScriptValueType.FLOAT |}];
     m_node_counter := 4 |}.

(** A sequence node (identifier 1) with get-variable nodes (identifiers 2,
    3 and 4) on its outputs 0, 1 and 3: output 2 is not connected. *)
Definition sequence_graph : Graph :=
  {| m_nodes := [mkNode 1 SequenceNode; mkNode 2 (GetVariableNode 0);
                 mkNode 3 (GetVariableNode 1); mkNode 4 (GetVariableNode 2)];
     m_links := [mkLink 1 0 2 0; mkLink 1 1 3 0; mkLink 1 3 4 0];
     m_variables := [];
     m_node_counter := 4 |}.

(** An add node (identifier 1) whose input pin 0 is linked to its own
    output and whose input pin 1 is fed by a constant (identifier 2). *)
Definition self_loop_graph : Graph :=
  {| m_nodes := [mkNode 1 AddNode; mkNode 2 (ConstNode 0)];
     m_links := [mkLink 1 0 1 0; mkLink 2 0 1 1];
     m_variables := [];
     m_node_counter := 2 |}.

(** The nodes whose [serialize] follows a null pointer: a call node without
    a component or without a function, lines 853-854, and a node that names
    a component type [reflection::getComponent] does not know, lines 853,
    1352 and 1414. *)
Definition cannot_be_saved (host : Host) (d : NodeData) : Prop :=
  match d with
  | CallNode component function =>
      match component with
      | None => True
      | Some cmp => function = None ∨ getComponentName host cmp = None
      end
  | GetPropertyNode _ cmp_type => getComponentName host cmp_type = None
  | SetPropertyNode _ _ cmp_type => getComponentName host cmp_type = None
  | _ => False
  end.

(** The bytes of a file: the header, the counter, the variables, the links
    and the number of nodes, followed by [nodes]. *)
Definition file_bytes (host : Host) (counter : N) (vars : list GraphVariable)
    (links : list NodeEditorLink) (node_count : N) (nodes : list byte)
  : list byte :=
  write_u32 MAGIC ++ write_u32 0 ++ write_u32 counter
  ++ write_u32 (N.of_nat (length vars))
  ++ mjoin (map (serialize_variable host) vars)
  ++ write_u32 (N.of_nat (length links))
  ++ mjoin (map serialize_link links)
  ++ write_u32 node_count ++ nodes.

(** An add node (identifier 3) whose first input is a float constant
    (identifier 1, value 2.5) and whose second input is a get-variable
    node (identifier 2) with the stored index 7, in a graph without
    variables: the type of the right operand cannot be read. *)
Definition unreadable_operand_graph : Graph :=
  {| m_nodes := [mkNode 1 (ConstNode 0x40200000);
                 mkNode 2 (GetVariableNode 7); mkNode 3 AddNode];
     m_links := [mkLink 1 0 3 0; mkLink 2 0 3 1];
     m_variables := [];
     m_node_counter := 3 |}.

(** ** Properties of the encoding primitives *)

Lemma writeLEB128_eq (val : N) :
  writeLEB128 val =
    if leb_end (N.shiftr val 7) (N.land val 0x7f)
    then [N.land val 0x7f]
    else N.lor (N.land val 0x7f) 0x80 :: writeLEB128 (N.shiftr val 7).
Proof.
  rewrite writeLEB128_equation_1. unfold writeLEB128_unfold_clause_1.
  generalize (inspect (leb_end (N.shiftr val 7) (N.land val 127))).
  intros [[] e]; simpl; rewrite e; reflexivity.
Qed.

Lemma lor_shiftl_add (r x s : N) :
  r < 2 ^ s → N.lor r (N.shiftl x s) = r + x * 2 ^ s.
Proof.
  intros Hr. rewrite N.shiftl_mul_pow2.
  assert (Hdisj : N.land r (x * 2 ^ s) = 0).
  { apply N.bits_inj. intros m. rewrite N.land_spec, N.bits_0.
    destruct (N.lt_ge_cases m s) as [Hm | Hm].
    - rewrite N.mul_pow2_bits_low by assumption. apply andb_false_r.
    - rewrite <- (N.mod_small r (2 ^ s)) by assumption.
      rewrite N.mod_pow2_bits_high by assumption. reflexivity. }
  rewrite <- N.lxor_lor by assumption.
  symmetry. by apply N.add_nocarry_lxor.
Qed.

Lemma land_7f (val : N) : N.land val 0x7f = val mod 128.
Proof. change 0x7f with (N.ones 7). by rewrite N.land_ones. Qed.

Lemma shiftr_7 (val : N) : N.shiftr val 7 = val / 128.
Proof. by rewrite N.shiftr_div_pow2. Qed.

Lemma continuation_byte (b : N) :
  b < 128 →
  N.land (N.lor b 0x80) 0x7f = b ∧ N.land (N.lor b 0x80) 0x80 ≠ 0.
Proof.
  intros Hb.
  change 0x80 with (N.shiftl 1 7) at 1 2.
  rewrite lor_shiftl_add by exact Hb.
  split.
  - rewrite land_7f. change (1 * 2 ^ 7) with (1 * 128).
    rewrite N.Div0.mod_add. by apply N.mod_small.
  - intros Hz.
    assert (Hbit : N.testbit (N.land (b + 1 * 2 ^ 7) 0x80) 7 = true).
    { rewrite N.land_spec. change 0x80 with (2 ^ 7) at 1.
      rewrite N.pow2_bits_true, andb_true_r.
      apply N.testbit_true.
      rewrite N.div_add by done. rewrite N.div_small by exact Hb. done. }
    rewrite Hz, N.bits_0 in Hbit. discriminate.
Qed.

Lemma land_pow2_small (b k : N) : b < 2 ^ k → N.land b (2 ^ k) = 0.
Proof.
  intros Hb. apply N.bits_inj. intros m.
  rewrite N.land_spec, N.bits_0, N.pow2_bits_eqb.
  destruct (N.eqb_spec k m) as [<- | _]; [|apply andb_false_r].
  rewrite andb_true_r. apply N.testbit_false.
  by rewrite N.div_small.
Qed.

Lemma final_byte (b : N) : b < 128 → N.land b 0x80 = 0.
Proof. apply (land_pow2_small b 7). Qed.

(** The second disjunct of the loop condition never holds: after a logical
    shift of a 64-bit value the top seven bits are clear. *)
Lemma leb_end_u64 (val : N) :
  val < u64_mod →
  leb_end (N.shiftr val 7) (N.land val 0x7f)
  = (N.shiftr val 7 =? 0) && (N.land (N.land val 0x7f) 0x40 =? 0).
Proof.
  intros Hval. unfold leb_end.
  assert (Hne : (N.shiftr val 7 =? u64_mod - 1) = false).
  { apply N.eqb_neq. rewrite shiftr_7.
    pose proof (N.Div0.mul_div_le val 128).
    change u64_mod with 18446744073709551616 in *. lia. }
  rewrite Hne. simpl. apply orb_false_r.
Qed.

Lemma decode_sum_bound (val result shift : N) :
  shift ≤ 64 → val < 2 ^ (64 - shift) → result < 2 ^ shift →
  result + val * 2 ^ shift < u64_mod.
Proof.
  intros Hshift Hval Hres.
  assert (Hpow : 2 ^ (64 - shift) * 2 ^ shift = u64_mod).
  { rewrite <- N.pow_add_r. unfold u64_mod. f_equal. lia. }
  rewrite <- Hpow. nia.
Qed.

Lemma decode_write_loop (val : N) :
  ∀ (result shift : N) (rest : list byte),
    shift ≤ 64 → val < 2 ^ (64 - shift) → result < 2 ^ shift →
    ∃ shift' b,
      decodeSLEB128_loop (writeLEB128 val ++ rest) result shift
      = Some (result + val * 2 ^ shift, shift', b, rest)
      ∧ N.land b 0x40 = 0.
Proof.
  induction val as [val IH] using (well_founded_induction N.lt_wf_0).
  intros result shift rest Hshift Hval Hres.
  pose proof (decode_sum_bound _ _ _ Hshift Hval Hres) as Hsum.
  assert (Hval64 : val < u64_mod) by nia.
  assert (Hbyte : val mod 128 < 128) by (apply N.mod_lt; lia).
  pose proof (N.div_mod val 128 ltac:(lia)) as Hdm.
  rewrite writeLEB128_eq, (leb_end_u64 _ Hval64).
  rewrite shiftr_7, !land_7f.
  destruct (N.eqb_spec (val / 128) 0) as [Hz | Hnz]; simpl andb.
  1: destruct (N.eqb_spec (N.land (val mod 128) 64) 0) as [Hs | Hs].
  1: { (* the last byte: nothing is left and its sign bit is clear *)
    assert (Hsmall : val mod 128 = val) by lia.
    rewrite Hsmall in *.
    cbn [app decodeSLEB128_loop].
    rewrite final_byte by exact Hbyte. simpl N.eqb. cbv iota.
    rewrite land_7f, Hsmall, lor_shiftl_add by exact Hres.
    rewrite N.mod_small by exact Hsum.
    by exists (shift + 7), val. }
  (* otherwise a continuation byte is written and the loop goes on *)
  all: assert (H64 : 64 ≤ val).
  { destruct (N.lt_ge_cases val 64) as [Hlt|]; [|done].
    exfalso. apply Hs. rewrite N.mod_small by lia.
    by apply (land_pow2_small val 6). }
  2: { pose proof (N.Div0.mul_div_le val 128). lia. }
  all: assert (Hshift' : shift ≤ 57).
  1, 3: destruct (N.lt_ge_cases 57 shift) as [Hlt|]; [exfalso|done].
  1, 2: assert (2 ^ (64 - shift) ≤ 2 ^ 6) by (apply N.pow_le_mono_r; lia).
  1, 2: change (2 ^ 6) with 64 in *; lia.
  all: assert (Hp7 : 2 ^ (shift + 7) = 128 * 2 ^ shift)
    by (rewrite N.pow_add_r; change (2 ^ 7) with 128; lia).
  all: assert (Hq : 2 ^ (64 - shift) = 128 * 2 ^ (64 - (shift + 7)))
    by (change 128 with (2 ^ 7); rewrite <- N.pow_add_r; f_equal; lia).
  all: destruct (continuation_byte _ Hbyte) as [Hlow Hhigh].
  all: cbn [app decodeSLEB128_loop].
  all: rewrite Hlow, lor_shiftl_add by exact Hres.
  all: apply N.eqb_neq in Hhigh; rewrite Hhigh.
  all: rewrite N.mod_small by nia.
  all: destruct (IH (val / 128)) with
         (result := result + val mod 128 * 2 ^ shift) (shift := shift + 7)
         (rest := rest) as (shift' & b & Hdec & Hb);
    [ apply N.div_lt; lia | lia
    | apply N.Div0.div_lt_upper_bound; rewrite <- Hq; exact Hval
    | rewrite Hp7; nia | ].
  all: exists shift', b; split; [|exact Hb].
  all: rewrite Hdec, Hp7; do 4 f_equal.
  all: rewrite Hdm at 3; ring.
Qed.

Lemma to_i64_to_u64 (v : Z) :
  (- 2 ^ 63 ≤ v < 2 ^ 63)%Z → to_i64 (to_u64 v) = v.
Proof.
  intros Hv. unfold to_i64, to_u64.
  change (2 ^ 63)%Z with 9223372036854775808%Z in *.
  change (2 ^ 64)%Z with 18446744073709551616%Z in *.
  change (2 ^ 63) with 9223372036854775808.
  destruct (Z.neg_nonneg_cases v) as [Hneg | Hpos].
  - assert (Hmod : (v mod 18446744073709551616 = v + 18446744073709551616)%Z).
    { symmetry. apply Z.mod_unique_pos with (q := (-1)%Z); lia. }
    rewrite Hmod. destruct (N.ltb_spec (Z.to_N (v + 18446744073709551616))
      9223372036854775808); lia.
  - rewrite Z.mod_small by lia.
    destruct (N.ltb_spec (Z.to_N v) 9223372036854775808); lia.
Qed.

Lemma to_u64_range (v : Z) : to_u64 v < u64_mod.
Proof.
  unfold to_u64, u64_mod.
  pose proof (Z.mod_pos_bound v (2 ^ 64) ltac:(done)).
  change (2 ^ 64) with (Z.to_N (2 ^ 64)). lia.
Qed.

(** Decoding what [writeLEB128] wrote for a 64-bit pattern gives the signed
    reading of the pattern and leaves the bytes that follow. *)
Lemma decode_writeLEB128 (u : N) (rest : list byte) :
  u < u64_mod →
  decodeSLEB128 (writeLEB128 u ++ rest) = Some (to_i64 u, rest).
Proof.
  intros Hu. unfold decodeSLEB128.
  destruct (decode_write_loop u 0 0 rest) as (shift & b & Hdec & Hb);
    [lia | exact Hu | done |].
  rewrite Hdec, Hb. simpl N.eqb. simpl negb. rewrite andb_false_r.
  by rewrite N.add_0_l, N.pow_0_r, N.mul_1_r.
Qed.

(** C1. For every value [v] of the signed 64-bit range, the reference
    signed-LEB128 decoder reads the bytes written by [writeLEB128] for [v]
    back as [v], and stops exactly at the end of the encoding. *)
Theorem writeLEB128_roundtrip (v : Z) (rest : list byte) :
  (- 2 ^ 63 ≤ v < 2 ^ 63)%Z →
  decodeSLEB128 (writeLEB128 (to_u64 v) ++ rest) = Some (v, rest).
Proof.
  intros Hv.
  rewrite decode_writeLEB128 by apply to_u64_range.
  by rewrite to_i64_to_u64.
Qed.

Lemma writeLEB128_roundtrip_witness :
  decodeSLEB128 (writeLEB128 (to_u64 (-1)) ++ [0x0B]) = Some ((-1)%Z, [0x0B]).
Proof. apply writeLEB128_roundtrip. lia. Defined.

(** The encoder is injective on the signed 64-bit range. *)
Corollary writeLEB128_injective (v w : Z) :
  (- 2 ^ 63 ≤ v < 2 ^ 63)%Z → (- 2 ^ 63 ≤ w < 2 ^ 63)%Z →
  writeLEB128 (to_u64 v) = writeLEB128 (to_u64 w) → v = w.
Proof.
  intros Hv Hw Heq.
  pose proof (decode_writeLEB128 (to_u64 v) [] (to_u64_range v)) as Ev.
  pose proof (decode_writeLEB128 (to_u64 w) [] (to_u64_range w)) as Ew.
  rewrite Heq, Ew in Ev.
  rewrite !to_i64_to_u64 in Ev by assumption. by injection Ev.
Qed.

(** The boundary values. A negative value is written with all ten bytes: the
    shift is logical, so the loop only stops once every one of the 64 bits
    has been written. *)
Example writeLEB128_zero : writeLEB128 (to_u64 0) = [0x00].
Proof. reflexivity. Qed.

Example writeLEB128_minus_one :
  writeLEB128 (to_u64 (-1))
  = [0xFF; 0xFF; 0xFF; 0xFF; 0xFF; 0xFF; 0xFF; 0xFF; 0xFF; 0x01].
Proof. reflexivity. Qed.

(** The encoding of a negative value is not the shortest one: [0x7F] alone
    already reads as [-1]. *)
Example writeLEB128_minus_one_not_minimal :
  decodeSLEB128 [0x7F] = Some ((-1)%Z, [])
  ∧ writeLEB128 (to_u64 (-1)) ≠ [0x7F].
Proof. split; [reflexivity | discriminate]. Qed.

Example writeLEB128_boundaries :
  decodeSLEB128 (writeLEB128 (to_u64 0)) = Some (0%Z, [])
  ∧ decodeSLEB128 (writeLEB128 (to_u64 (-1))) = Some ((-1)%Z, [])
  ∧ decodeSLEB128 (writeLEB128 (to_u64 (- 2 ^ 63))) = Some ((- 2 ^ 63)%Z, [])
  ∧ decodeSLEB128 (writeLEB128 (to_u64 (2 ^ 63 - 1)))
    = Some ((2 ^ 63 - 1)%Z, []).
Proof. repeat split; reflexivity. Qed.

(** ** Removing a node *)

Lemma link_touches_on (node_id : N) (l : NodeEditorLink) :
  link_touches node_id l = true ↔ link_on node_id l.
Proof.
  unfold link_touches, link_on, getFromNode, getToNode.
  rewrite orb_true_iff, !N.eqb_eq. done.
Qed.

(** The backwards loop with [erase] is a filter: after the positions [k] and
    above have been left alone and those below visited, the links below [k]
    that touch the node are gone and nothing else has moved. *)
Lemma removeNode_links_prefix (node_id : N) (k : nat) :
  ∀ links : list NodeEditorLink,
    (k ≤ length links)%nat →
    removeNode_links node_id k links
    = filter (λ l, ¬ link_on node_id l) (take k links) ++ drop k links.
Proof.
  induction k as [|i IH]; intros links Hk.
  - by rewrite take_0, drop_0.
  - destruct (lookup_lt_is_Some_2 links i ltac:(lia)) as [l Hl].
    cbn [removeNode_links]. rewrite Hl.
    rewrite (take_S_r _ _ _ Hl), filter_app.
    destruct (link_touches node_id l) eqn:Htouch.
    + rewrite IH by (rewrite length_delete by eauto; lia).
      rewrite delete_take_drop.
      rewrite take_app_length' by (rewrite length_take; lia).
      rewrite drop_app_length' by (rewrite length_take; lia).
      rewrite (filter_cons_False _ l []), filter_nil, app_nil_r; [done|].
      intros Hnot. apply Hnot. by apply link_touches_on.
    + rewrite IH by lia.
      rewrite (drop_S _ _ _ Hl).
      rewrite (filter_cons_True _ l []), filter_nil, <- app_assoc; [done|].
      intros Hon. apply link_touches_on in Hon. congruence.
Qed.

Lemma removeNode_links_filter (node_id : N) (links : list NodeEditorLink) :
  removeNode_links node_id (length links) links
  = filter (λ l, ¬ link_on node_id l) links.
Proof.
  rewrite removeNode_links_prefix by done.
  by rewrite firstn_all, drop_all, app_nil_r.
Qed.

(** C7. [removeNode] deletes the node at the given position and exactly the
    links with an endpoint on that node: the links that remain are the other
    links, in their order; all other nodes, the variables and the counter
    are unchanged. *)
Theorem removeNode_spec (g : Graph) (node : nat) (n : Node) :
  m_nodes g !! node = Some n →
  ∃ g', removeNode node g = Some g'
    ∧ m_nodes g' = delete node (m_nodes g)
    ∧ m_links g' = filter (λ l, ¬ link_on (m_id n) l) (m_links g)
    ∧ (∀ l, l ∈ m_links g' ↔ l ∈ m_links g ∧ ¬ link_on (m_id n) l)
    ∧ (∀ i, (i < node)%nat → m_nodes g' !! i = m_nodes g !! i)
    ∧ (∀ i, (node ≤ i)%nat → m_nodes g' !! i = m_nodes g !! S i)
    ∧ m_variables g' = m_variables g
    ∧ m_node_counter g' = m_node_counter g.
Proof.
  intros Hn. unfold removeNode. rewrite Hn.
  eexists. split; [reflexivity|]. cbn.
  rewrite removeNode_links_filter.
  split_and!; try reflexivity.
  - intros l. rewrite list_elem_of_filter. tauto.
  - intros i Hi. by apply list_lookup_delete_lt.
  - intros i Hi. by apply list_lookup_delete_ge.
Qed.

Lemma removeNode_spec_witness :
  ∃ g', removeNode 1 abc_graph = Some g'
    ∧ m_nodes g' = [mkNode 1 StartNode; mkNode 3 SequenceNode]
    ∧ m_links g' = [mkLink 1 1 3 0].
Proof.
  destruct (removeNode_spec abc_graph 1 (mkNode 2 SequenceNode) eq_refl)
    as (g' & Hrm & Hnodes & Hlinks & _).
  exists g'. split; [exact Hrm|]. split; [exact Hnodes|exact Hlinks].
Defined.

Example removeNode_abc :
  removeNode 1 abc_graph
  = Some {| m_nodes := [mkNode 1 StartNode; mkNode 3 SequenceNode];
            m_links := [mkLink 1 1 3 0];
            m_variables := [];
            m_node_counter := 3 |}.
Proof. reflexivity. Qed.

(** ** Node identifiers *)

Lemma find_index_Some {A} (p : A → bool) (l : list A) (i : nat) :
  find_index p l = Some i →
  ∃ x, l !! i = Some x ∧ p x = true
       ∧ ∀ j y, (j < i)%nat → l !! j = Some y → p y = false.
Proof.
  revert i. induction l as [|x l IH]; intros i; cbn; [done|].
  destruct (p x) eqn:Hp.
  - intros [= <-]. exists x. split_and!; [done..|]. intros; lia.
  - destruct (find_index p l) as [k|] eqn:Hfind; [|done].
    cbn. intros [= <-]. destruct (IH k eq_refl) as (z & Hz & Hpz & Hbefore).
    exists z. split_and!; [done..|].
    intros [|j] y Hj; cbn; [by intros [= <-]|].
    apply Hbefore. lia.
Qed.

Lemma find_index_None {A} (p : A → bool) (l : list A) :
  find_index p l = None ↔ ∀ x, x ∈ l → p x = false.
Proof.
  induction l as [|x l IH]; cbn.
  - split; [|done]. intros _ x Hx. by apply not_elem_of_nil in Hx.
  - destruct (p x) eqn:Hp.
    + split; [done|]. intros H. specialize (H x (list_elem_of_here _ _)).
      congruence.
    + destruct (find_index p l) as [k|]; cbn.
      * split; [done|]. intros H.
        assert (Hk : Some k = None); [|done].
        apply IH. intros y Hy. apply H. by right.
      * split; [|done]. intros _ y [->|Hy]%elem_of_cons; [done|].
        by apply IH.
Qed.

(** With pairwise distinct identifiers [getNode] finds each node by its
    identifier. *)
Lemma getNode_NoDup (g : Graph) (i : nat) (n : Node) :
  NoDup (m_id <$> m_nodes g) → m_nodes g !! i = Some n →
  getNode (m_id n) g = Some i.
Proof.
  intros Hnd Hn. unfold getNode.
  destruct (find_index _ _) as [j|] eqn:Hfind.
  - apply find_index_Some in Hfind as (x & Hx & Hid & _).
    apply N.eqb_eq in Hid. f_equal.
    apply (NoDup_lookup _ j i (m_id n) Hnd);
      rewrite list_lookup_fmap; [by rewrite Hx, <- Hid | by rewrite Hn].
  - exfalso. rewrite find_index_None in Hfind.
    specialize (Hfind n (list_elem_of_lookup_2 _ _ _ Hn)).
    by rewrite N.eqb_refl in Hfind.
Qed.

Lemma addNode_ids (d : NodeData) (g : Graph) :
  ids_below_counter g → m_node_counter g + 1 < u32_mod →
  ids_below_counter (addNode d g)
  ∧ m_node_counter (addNode d g) = m_node_counter g + 1.
Proof.
  intros [Hnd Hall] Hc. unfold ids_below_counter, addNode. cbn.
  rewrite N.mod_small by exact Hc.
  split_and!; [| |done].
  - rewrite fmap_app. apply NoDup_app. split_and!; [done| |apply NoDup_singleton].
    intros id (n & -> & Hn)%list_elem_of_fmap Hin.
    apply list_elem_of_singleton in Hin. cbn in Hin.
    rewrite Forall_forall in Hall. specialize (Hall n Hn). lia.
  - apply Forall_app. split.
    + eapply Forall_impl; [exact Hall|]. cbn. intros; lia.
    + apply Forall_singleton. cbn. lia.
Qed.

Lemma removeNode_ids (node : nat) (g g' : Graph) :
  ids_below_counter g → removeNode node g = Some g' →
  ids_below_counter g' ∧ m_node_counter g' = m_node_counter g.
Proof.
  intros [Hnd Hall]. unfold removeNode.
  destruct (m_nodes g !! node); [|done]. intros [= <-].
  unfold ids_below_counter. cbn. split_and!; [| |done].
  - rewrite list_fmap_delete.
    eapply sublist_NoDup; [done|apply sublist_delete].
  - by apply Forall_delete.
Qed.

Lemma additions_cons (op : GraphOp) (ops : list GraphOp) :
  additions (op :: ops)
  = ((if is_add op then 1 else 0) + additions ops)%nat.
Proof.
  unfold additions. rewrite filter_cons.
  destruct op; cbn; by destruct (decide _).
Qed.

Lemma apply_ops_ids (ops : list GraphOp) :
  ∀ g g',
    ids_below_counter g →
    m_node_counter g + N.of_nat (additions ops) < u32_mod →
    apply_ops ops g = Some g' →
    ids_below_counter g'
    ∧ m_node_counter g' = m_node_counter g + N.of_nat (additions ops).
Proof.
  induction ops as [|op ops IH]; intros g g' Hinv Hc.
  - intros [= <-]. split; [done|]. unfold additions. cbn. lia.
  - rewrite additions_cons in Hc |- *.
    destruct op as [d | node]; cbn [apply_ops apply_op is_add] in *.
    + destruct (addNode_ids d g Hinv ltac:(lia)) as [Hinv' Hc'].
      intros Hrun. destruct (IH _ _ Hinv' ltac:(lia) Hrun) as [? ->].
      split; [done|lia].
    + destruct (removeNode node g) as [g1|] eqn:Hrm; [|done].
      destruct (removeNode_ids _ _ _ Hinv Hrm) as [Hinv' Hc'].
      intros Hrun. destruct (IH _ _ Hinv' ltac:(lia) Hrun) as [? ->].
      split; [done|lia].
Qed.

Lemma ids_below_counter_empty : ids_below_counter empty_graph.
Proof. split; [apply NoDup_nil_2 | apply Forall_nil_2]. Qed.

Lemma land_7fff_small (id : N) : id ≤ 32767 → N.land id 0x7fff = id.
Proof.
  intros Hid. change 0x7fff with (N.ones 15).
  rewrite N.land_ones. apply N.mod_small. change (2 ^ 15) with 32768. lia.
Qed.

(** C4, as the code has it. In a graph built from the empty graph by node
    additions and removals, with fewer than 2^32 additions, the identifiers
    are pairwise distinct and lie between 1 and the number of additions.
    While at most 32767 nodes have been added they fit in 15 bits, and the
    15-bit mask of the link lookup resolves the identifier of every node to
    that node. *)
Theorem node_ids_unique_and_bounded (ops : list GraphOp) (g : Graph) :
  apply_ops ops empty_graph = Some g →
  N.of_nat (additions ops) < u32_mod →
  NoDup (m_id <$> m_nodes g)
  ∧ (∀ n, n ∈ m_nodes g → 1 ≤ m_id n ≤ N.of_nat (additions ops))
  ∧ (N.of_nat (additions ops) ≤ 32767 →
     ids_fit_15_bits g
     ∧ ∀ i n, m_nodes g !! i = Some n →
              getNode (N.land (m_id n) 0x7fff) g = Some i).
Proof.
  intros Hrun Hadds.
  destruct (apply_ops_ids ops empty_graph g ids_below_counter_empty
              ltac:(cbn; lia) Hrun) as [[Hnd Hall] Hc].
  cbn in Hc. rewrite Hc in Hall. rewrite Forall_forall in Hall.
  split_and!; [done|done|].
  intros Hsmall.
  assert (Hfit : ∀ n, n ∈ m_nodes g → m_id n ≤ 32767).
  { intros n Hn. specialize (Hall n Hn). lia. }
  split; [by split|].
  intros i n Hn.
  rewrite land_7fff_small by (apply Hfit; by eapply list_elem_of_lookup_2).
  by apply getNode_NoDup.
Qed.

Lemma node_ids_unique_and_bounded_witness :
  let ops := [OpAddNode StartNode; OpAddNode UpdateNode; OpRemoveNode 0;
              OpAddNode (ConstNode 0)] in
  ∃ g, apply_ops ops empty_graph = Some g
       ∧ (m_id <$> m_nodes g) = [2; 3]
       ∧ NoDup (m_id <$> m_nodes g)
       ∧ ids_fit_15_bits g.
Proof.
  intros ops. eexists. split; [reflexivity|]. split; [reflexivity|].
  destruct (node_ids_unique_and_bounded ops _ eq_refl) as (Hnd & _ & Hfit).
  - by vm_compute.
  - split; [exact Hnd|]. apply Hfit. by vm_compute.
Defined.

Lemma apply_ops_app (ops1 ops2 : list GraphOp) (g : Graph) :
  apply_ops (ops1 ++ ops2) g
  = match apply_ops ops1 g with
    | Some g1 => apply_ops ops2 g1
    | None => None
    end.
Proof.
  revert g. induction ops1 as [|op ops1 IH]; intros g; cbn; [done|].
  by destruct (apply_op op g).
Qed.

(** Adding [k] nodes in a row: the counter advances by [k] (as long as it
    does not wrap around) and the node added last carries its value. *)
Lemma apply_ops_additions (d : NodeData) (k : nat) :
  ∀ g, m_node_counter g + N.of_nat k < u32_mod →
    ∃ g', apply_ops (replicate k (OpAddNode d)) g = Some g'
      ∧ m_node_counter g' = m_node_counter g + N.of_nat k
      ∧ ((0 < k)%nat →
         ∃ n, n ∈ m_nodes g' ∧ m_id n = m_node_counter g').
Proof.
  induction k as [|k IH]; intros g Hc.
  - exists g. split_and!; [done|cbn; lia|lia].
  - destruct (IH g ltac:(lia)) as (g1 & Hrun & Hc1 & _).
    exists (addNode d g1). rewrite replicate_S_end, apply_ops_app, Hrun.
    split_and!; [done| |].
    + cbn. rewrite N.mod_small by lia. lia.
    + intros _.
      exists {| m_id := (m_node_counter g1 + 1) mod u32_mod; m_pos := (0, 0);
                m_error := EmptyString; data := d |}.
      split; [|reflexivity].
      cbn. apply elem_of_app. right. by apply list_elem_of_singleton.
Qed.

(** C4, as stated, fails: nothing caps the number of nodes, and the 32768th
    node added to a graph gets the identifier 32768, which does not fit in
    15 bits. *)
Lemma node_ids_exceed_15_bits :
  ∃ ops g, apply_ops ops empty_graph = Some g ∧ ¬ ids_fit_15_bits g.
Proof.
  destruct (apply_ops_additions UpdateNode (N.to_nat 32768) empty_graph)
    as (g & Hrun & Hc & Hlast).
  { rewrite N2Nat.id. by vm_compute. }
  exists (replicate (N.to_nat 32768) (OpAddNode UpdateNode)), g.
  split; [exact Hrun|].
  intros [_ Hfit].
  destruct Hlast as (n & Hn & Hid); [lia|].
  specialize (Hfit n Hn). rewrite Hid, Hc, N2Nat.id in Hfit.
  cbn in Hfit. lia.
Qed.

(** The mask then resolves the identifier 32768 to no node at all. *)
Example mask_of_32768 : N.land 32768 0x7fff = 0.
Proof. reflexivity. Qed.

(** ** Code generation only touches the diagnostics *)

Section Diagnostics.
Context (host : Host).

Lemma clearErrors_setError (this : nat) (msg : string) (g : Graph) :
  clearErrors (setError this msg g) = clearErrors g.
Proof.
  unfold clearErrors, setError. cbn. f_equal.
  generalize this. induction (m_nodes g) as [|n l IH]; intros [|i]; cbn;
    [done..|]. by rewrite IH.
Qed.

Lemma keeps_emit (bs : list byte) (g : Graph) : keeps g (emit bs g).
Proof. by intros out g' [= _ <-]. Qed.

Lemma keeps_fail_with (this : nat) (msg : string) (g : Graph) :
  keeps g (fail_with this msg g).
Proof. intros out g' [= _ <-]. apply clearErrors_setError. Qed.

Lemma keeps_gseq (a b : Gen) (g : Graph) :
  keeps g (a g) → (∀ g1, keeps g1 (b g1)) → keeps g ((a ;> b) g).
Proof.
  intros Ha Hb out g'. unfold gseq.
  destruct (a g) as [[o1 g1]| |]; [|done..]. cbn [obind].
  destruct (b g1) as [[o2 g2]| |] eqn:Hbg; [|done..]. cbn [obind].
  intros [= _ <-]. rewrite (Hb g1 o2 g2 Hbg). by apply (Ha o1).
Qed.

Lemma keeps_emit_op (op : option byte) (g : Graph) : keeps g (emit_op op g).
Proof. destruct op; [apply keeps_emit | done]. Qed.

Lemma keeps_emit_arith (fuel n0 : nat) (i0 : N) (fop iop : byte) (g : Graph) :
  keeps g (emit_arith fuel n0 i0 fop iop g).
Proof.
  unfold emit_arith. destruct (getOutputType fuel g n0 i0); [|done..].
  cbn [obind]. destruct (_ =? _); apply keeps_emit.
Qed.

Lemma keeps_emit_compare (fuel this : nat) (T : NodeType) (a : nat)
    (a_idx : N) (b : nat) (b_idx : N) (g : Graph) :
  keeps g (emit_compare fuel this T a a_idx b b_idx g).
Proof.
  unfold emit_compare.
  destruct (getOutputType fuel g a a_idx); [|done..]. cbn [obind].
  destruct (getOutputType fuel g b b_idx); [|done..]. cbn [obind].
  destruct (negb _); [apply keeps_fail_with|].
  destruct (_ =? _); apply keeps_emit_op.
Qed.

Ltac keeps_step IH :=
  first
    [ apply keeps_emit | apply keeps_fail_with | apply keeps_emit_arith
    | apply keeps_emit_compare | apply IH | done
    | apply keeps_gseq; [|intros ?]
    | match goal with
      | |- keeps _ (match ?x with _ => _ end) => destruct x
      | |- keeps _ (match ?x with _ => _ end _) => destruct x
      | |- keeps _ (if ?x then _ else _) => destruct x
      end ].

Lemma generate_keeps (fuel : nat) :
  ∀ this output_idx g, keeps g (generate host fuel this output_idx g).
Proof.
  induction fuel as [|fuel IH]; intros this output_idx g; [done|].
  cbn [generate].
  destruct (m_nodes g !! this) as [n|]; [|done].
  destruct (data n); unfold entry_body; cbn [fst snd]; repeat keeps_step IH.
  (* the loop of the sequence node *)
  match goal with
  | |- keeps _ (?loop fuel 0 g) =>
      assert (Hloop : ∀ k i g1, keeps g1 (loop k i g1)); [|apply Hloop]
  end.
  induction k as [|k IHk]; intros i g1.
  - destruct (getOutputNode (m_id n) i g1) as [[nx|] ?]; [done|].
    by intros out g' [= _ <-].
  - destruct (getOutputNode (m_id n) i g1) as [[nx|] ?];
      [|by intros out g' [= _ <-]].
    apply keeps_gseq; [apply IH|]. intros g2. apply IHk.
Qed.

End Diagnostics.

Lemma clearErrors_eq (g g' : Graph) :
  clearErrors g' = clearErrors g →
  m_links g' = m_links g
  ∧ m_variables g' = m_variables g
  ∧ m_node_counter g' = m_node_counter g
  ∧ length (m_nodes g') = length (m_nodes g)
  ∧ ∀ i n', m_nodes g' !! i = Some n' →
      ∃ n, m_nodes g !! i = Some n
           ∧ m_id n' = m_id n ∧ m_pos n' = m_pos n ∧ data n' = data n.
Proof.
  unfold clearErrors. intros [= Hnodes Hlinks Hvars Hcounter].
  split_and!; [done..| |].
  - by rewrite <- (length_map (with_error EmptyString) (m_nodes g')), Hnodes,
      length_map.
  - intros i n' Hn'.
    assert (Hi : (with_error EmptyString <$> m_nodes g) !! i
                 = Some (with_error EmptyString n')).
    { change (with_error EmptyString <$> m_nodes g)
        with (map (with_error EmptyString) (m_nodes g)).
      rewrite <- Hnodes.
      change (map (with_error EmptyString) (m_nodes g'))
        with (with_error EmptyString <$> m_nodes g').
      by rewrite list_lookup_fmap, Hn'. }
    rewrite list_lookup_fmap in Hi.
    destruct (m_nodes g !! i) as [n|]; [|done].
    exists n. injection Hi as Hid Hpos Hdata. by split_and!.
Qed.

(** [setError] touches the node at position [this] only. *)
Lemma setError_lookup_ne (this i : nat) (msg : string) (g : Graph) :
  i ≠ this → m_nodes (setError this msg g) !! i = m_nodes g !! i.
Proof. intros Hne. cbn. by rewrite list_lookup_alter_ne. Qed.

(** A node of [g] is still there, but for its diagnostic, in a graph that
    a generator left behind. *)
Lemma clearErrors_lookup (g g' : Graph) (i : nat) (n : Node) :
  clearErrors g' = clearErrors g →
  m_nodes g !! i = Some n →
  ∃ n', m_nodes g' !! i = Some n'
        ∧ m_id n' = m_id n ∧ m_pos n' = m_pos n ∧ data n' = data n.
Proof.
  intros Heq Hn. symmetry in Heq.
  destruct (clearErrors_eq g' g Heq) as (_ & _ & _ & _ & Hnodes).
  destruct (Hnodes i n Hn) as (n' & Hn' & Hid & Hpos & Hdata).
  by exists n'.
Qed.

(** ** Node behaviour *)

Section NodeBehaviour.
Context (host : Host).

(** C9. A set-yaw or set-variable node with a value input that is not
    connected sets its diagnostic and emits nothing at all: neither
    instructions of its own nor those of the node on its flow output.
    After the call the [m_error] of the node is the message, which is not
    empty; everything else in the graph is as before. *)
Theorem missing_input_stops (fuel : nat) (g : Graph) (this : nat) (n : Node)
    (output_idx : N) :
  m_nodes g !! this = Some n →
  value_input_missing (m_id n) (data n) g →
  ∃ g' n',
    generate host (S fuel) this output_idx g = Done ([], g')
    ∧ g' = setError this (missing_input_message (data n)) g
    ∧ m_nodes g' !! this = Some n'
    ∧ n' = with_error (missing_input_message (data n)) n
    ∧ m_error n' = missing_input_message (data n)
    ∧ m_error n' ≠ EmptyString
    ∧ (data n = SetYawNode → m_error n' = "Missing inputs")
    ∧ (∀ m_var, data n = SetVariableNode m_var →
                m_error n' = "Missing input")
    ∧ m_id n' = m_id n ∧ m_pos n' = m_pos n ∧ data n' = data n
    ∧ (∀ i, i ≠ this → m_nodes g' !! i = m_nodes g !! i)
    ∧ m_links g' = m_links g
    ∧ m_variables g' = m_variables g
    ∧ m_node_counter g' = m_node_counter g.
Proof.
  intros Hn Hmissing.
  exists (setError this (missing_input_message (data n)) g),
    (with_error (missing_input_message (data n)) n).
  assert (Herr : m_error (with_error (missing_input_message (data n)) n)
                 = missing_input_message (data n)) by reflexivity.
  split_and!; try reflexivity.
  - cbn [generate]. rewrite Hn.
    destruct (data n) eqn:Hd; try done; cbn in Hmissing.
    + destruct (getInputNode (m_id n) 1 g) as [[o1|] i1],
        (getInputNode (m_id n) 2 g) as [[o2|] i2];
        cbn in Hmissing; try done; by destruct Hmissing.
    + destruct (getInputNode (m_id n) 1 g) as [[nv|] iv]; cbn in Hmissing;
        done.
  - cbn. by rewrite list_lookup_alter_eq, Hn.
  - rewrite Herr. by destruct (data n).
  - rewrite Herr. by intros ->.
  - rewrite Herr. by intros m_var ->.
  - intros i Hi. by apply setError_lookup_ne.
Qed.

End NodeBehaviour.

Lemma missing_input_stops_witness :
  ∃ g' n',
    generate test_host 3 1 0 faulty_yaw_graph = Done ([], g')
    ∧ g' = setError 1 "Missing inputs" faulty_yaw_graph
    ∧ m_nodes g' !! 1%nat = Some n'
    ∧ m_error n' = "Missing inputs"
    ∧ data n' = SetYawNode.
Proof.
  destruct (missing_input_stops test_host 2 faulty_yaw_graph 1
              (mkNode 2 SetYawNode) 0 eq_refl)
    as (g' & n' & Hgen & Hg' & Hn' & _ & _ & _ & Hyaw & _ & _ & _ & Hdata
        & _).
  { left. reflexivity. }
  exists g', n'. split_and!; [exact Hgen|exact Hg'|exact Hn'| |exact Hdata].
  exact (Hyaw eq_refl).
Defined.

(** The body of the update function of that graph is empty: the statements
    behind the faulty node are left out. *)
Example faulty_yaw_body :
  fst <$> (match generate test_host 5 0 0 faulty_yaw_graph with
           | Done r => Some r
           | _ => None
           end)
  = Some [0x00; 0x0B].
Proof. reflexivity. Qed.

Section EntryNodes.
Context (host : Host).

(** What the four entry nodes append for selector [0]. The start and update
    nodes append the declaration of no locals, the code of the node on the
    flow output and [END]. *)
Lemma entry_generate_body (fuel : nat) (g : Graph) (this : nat) (n : Node) :
  m_nodes g !! this = Some n →
  data n = StartNode ∨ data n = UpdateNode →
  generate host (S fuel) this 0 g
  = match getOutputNode (m_id n) 0 g with
    | (Some nx, i) =>
        '(code, g') ←o generate host fuel nx i g;
        Done ([0x00] ++ code ++ [WasmOp.END], g')
    | (None, _) => Done ([0x00; WasmOp.END], g)
    end.
Proof.
  intros Hn Hd. cbn [generate]. rewrite Hn.
  destruct Hd as [-> | ->]; cbn [N.eqb];
    unfold entry_body, gseq, emit; cbn [obind];
    destruct (getOutputNode (m_id n) 0 g) as [[nx|] i]; cbn [obind]; try done;
    by destruct (generate host fuel nx i g) as [[code g']| |].
Qed.

(** The key-input and mouse-move nodes run on into the next case and append
    a read of the first parameter behind the [END]. *)
Lemma entry_generate_fallthrough (fuel : nat) (g : Graph) (this : nat)
    (n : Node) :
  m_nodes g !! this = Some n →
  data n = KeyInputNode ∨ data n = MouseMoveNode →
  generate host (S fuel) this 0 g
  = match getOutputNode (m_id n) 0 g with
    | (Some nx, i) =>
        '(code, g') ←o generate host fuel nx i g;
        Done ([0x00] ++ code ++ [WasmOp.END; WasmOp.LOCAL_GET; 0x00], g')
    | (None, _) => Done ([0x00; WasmOp.END; WasmOp.LOCAL_GET; 0x00], g)
    end.
Proof.
  intros Hn Hd. cbn [generate]. rewrite Hn.
  destruct Hd as [-> | ->]; cbn [N.eqb];
    unfold entry_body, gseq, emit; cbn [obind];
    destruct (getOutputNode (m_id n) 0 g) as [[nx|] i]; cbn [obind]; try done;
    destruct (generate host fuel nx i g) as [[code g']| |]; cbn; try done;
    by rewrite <- !app_assoc.
Qed.

End EntryNodes.

(** C3 at a key-input node without links: behind the function end
    ([0x0B]) come the two bytes of [local.get 0]. *)
Theorem key_input_body_runs_on :
  generate test_host 1 0 0 key_input_graph
  = Done ([0x00; 0x0B; 0x20; 0x00], key_input_graph)
  ∧ generate test_host 1 0 0 mouse_move_graph
    = Done ([0x00; 0x0B; 0x20; 0x00], mouse_move_graph)
  ∧ generate test_host 1 0 0 (addNode StartNode empty_graph)
    = Done ([0x00; 0x0B], addNode StartNode empty_graph)
  ∧ generate test_host 1 0 0 (addNode UpdateNode empty_graph)
    = Done ([0x00; 0x0B], addNode UpdateNode empty_graph).
Proof. repeat split; reflexivity. Qed.

Section BinaryNodes.
Context (host : Host).

(** C2, as the code has it. Let both inputs of a binary node be connected,
    let [oa] and [ob] be the code of the left and of the right operand and
    [typeA] the type of the left operand.
    - A comparison node also asks for the type [typeB] of the right
      operand; when the two differ it appends the two operands and no
      operator, and after the call its [m_error] is "Types do not match".
    - An add or multiply node asks for the type of the left operand only:
      it appends the two operands and the operator of the family of the
      left operand, and leaves the graph as the operands left it, so it
      sets no diagnostic. *)
Theorem binary_node_generate (fuel : nat) (g g1 g2 : Graph) (this : nat)
    (n : Node) (a b : nat) (a_idx b_idx output_idx : N) (oa ob : list byte)
    (typeA : ScriptValueType) :
  m_nodes g !! this = Some n →
  getInputNode (m_id n) 0 g = (Some a, a_idx) →
  getInputNode (m_id n) 1 g = (Some b, b_idx) →
  generate host fuel a a_idx g = Done (oa, g1) →
  generate host fuel b b_idx g1 = Done (ob, g2) →
  getOutputType fuel g2 a a_idx = Done typeA →
  (∀ T typeB, data n = CompareNode T →
     getOutputType fuel g2 b b_idx = Done typeB → typeA ≠ typeB →
     ∃ g' n',
       generate host (S fuel) this output_idx g = Done (oa ++ ob, g')
       ∧ g' = setError this "Types do not match" g2
       ∧ m_nodes g' !! this = Some n'
       ∧ m_error n' = "Types do not match"
       ∧ m_id n' = m_id n ∧ m_pos n' = m_pos n ∧ data n' = data n
       ∧ ∀ i, i ≠ this → m_nodes g' !! i = m_nodes g2 !! i)
  ∧ (data n = AddNode →
     generate host (S fuel) this output_idx g
     = Done (oa ++ ob ++ [if typeA =? ScriptValueType.FLOAT
                          then WasmOp.F32_ADD else WasmOp.I32_ADD], g2))
  ∧ (data n = MulNode →
     generate host (S fuel) this output_idx g
     = Done (oa ++ ob ++ [if typeA =? ScriptValueType.FLOAT
                          then WasmOp.F32_MUL else WasmOp.I32_MUL], g2)).
Proof.
  intros Hn Ha Hb Hoa Hob HtA.
  split_and!.
  - intros T typeB Hd HtB Hne.
    assert (Hkeep : clearErrors g2 = clearErrors g).
    { rewrite (generate_keeps host fuel b b_idx g1 ob g2 Hob).
      exact (generate_keeps host fuel a a_idx g oa g1 Hoa). }
    destruct (clearErrors_lookup g g2 this n Hkeep Hn)
      as (n2 & Hn2 & Hid2 & Hpos2 & Hdata2).
    exists (setError this "Types do not match" g2),
      (with_error "Types do not match" n2).
    split_and!; [|reflexivity| |reflexivity|exact Hid2|exact Hpos2
                |exact Hdata2|].
    + cbn [generate]. rewrite Hn, Hd, Ha, Hb.
      unfold gseq. rewrite Hoa. cbn [obind]. rewrite Hob. cbn [obind].
      unfold emit_compare. rewrite HtA, HtB. cbn [obind].
      apply N.eqb_neq in Hne. rewrite Hne. cbn.
      by rewrite app_nil_r.
    + cbn. by rewrite list_lookup_alter_eq, Hn2.
    + intros i Hi. by apply setError_lookup_ne.
  - intros Hd. cbn [generate]. rewrite Hn, Hd, Ha, Hb.
    unfold gseq. rewrite Hoa. cbn [obind]. rewrite Hob. cbn [obind].
    unfold emit_arith. rewrite HtA. cbn [obind].
    by destruct (typeA =? ScriptValueType.FLOAT).
  - intros Hd. cbn [generate]. rewrite Hn, Hd, Ha, Hb.
    unfold gseq. rewrite Hoa. cbn [obind]. rewrite Hob. cbn [obind].
    unfold emit_arith. rewrite HtA. cbn [obind].
    by destruct (typeA =? ScriptValueType.FLOAT).
Qed.

End BinaryNodes.

(** A comparison node and an add node on a float and an integer, and an
    add node whose right operand has no type at all: the get-variable node
    refers to a variable that is not there. *)
Lemma binary_node_generate_witness :
  (∃ g' n',
     generate test_host 2 2 0 (mismatch_graph (CompareNode EQ))
     = Done ([0x43; 0x00; 0x00; 0x20; 0x40; 0x20; 0x00], g')
     ∧ g' = setError 2 "Types do not match" (mismatch_graph (CompareNode EQ))
     ∧ m_nodes g' !! 2%nat = Some n'
     ∧ m_error n' = "Types do not match")
  ∧ generate test_host 2 2 0 (mismatch_graph AddNode)
    = Done ([0x43; 0x00; 0x00; 0x20; 0x40; 0x20; 0x00; 0x92],
            mismatch_graph AddNode)
  ∧ getOutputType 1 unreadable_operand_graph 1 0 = Abort
  ∧ generate test_host 2 2 0 unreadable_operand_graph
    = Done ([0x43; 0x00; 0x00; 0x20; 0x40; 0x23; 0x08; 0x92],
            unreadable_operand_graph).
Proof.
  split_and!.
  - destruct (proj1 (binary_node_generate test_host 1
        (mismatch_graph (CompareNode EQ)) _ _ 2 _ 0 1 0 1 0 _ _
        ScriptValueType.FLOAT
        eq_refl eq_refl eq_refl eq_refl eq_refl eq_refl)
        EQ ScriptValueType.I32 eq_refl eq_refl)
      as (g' & n' & Hgen & Hg' & Hn' & Herr & _); [discriminate|].
    by exists g', n'.
  - exact (proj1 (proj2 (binary_node_generate test_host 1
      (mismatch_graph AddNode) _ _ 2 _ 0 1 0 1 0 _ _
      ScriptValueType.FLOAT
      eq_refl eq_refl eq_refl eq_refl eq_refl eq_refl)) eq_refl).
  - reflexivity.
  - exact (proj1 (proj2 (binary_node_generate test_host 1
      unreadable_operand_graph _ _ 2 _ 0 1 0 0 0 _ _
      ScriptValueType.FLOAT
      eq_refl eq_refl eq_refl eq_refl eq_refl eq_refl)) eq_refl).
Defined.

(** C2, as stated, fails on both kinds of node: the comparison node records
    the diagnostic but appends no operator, the add node appends the
    operator but records no diagnostic. *)
Lemma mismatch_claim_fails :
  getOutputType 1 (mismatch_graph (CompareNode EQ)) 0 0
    = Done ScriptValueType.FLOAT
  ∧ getOutputType 1 (mismatch_graph (CompareNode EQ)) 1 1
    = Done ScriptValueType.I32
  ∧ ¬ mismatch_claim test_host 2 (mismatch_graph (CompareNode EQ)) 2
  ∧ ¬ mismatch_claim test_host 2 (mismatch_graph AddNode) 2.
Proof.
  split_and!; [reflexivity..| |].
  - intros (code & op & g' & n' & Hgen & Hop & _).
    assert (Hlast : last (code ++ [op]) = Some 0).
    { injection Hgen as <- _. reflexivity. }
    rewrite last_snoc in Hlast. injection Hlast as ->.
    unfold operator_instructions in Hop.
    rewrite !elem_of_cons, elem_of_nil in Hop. intuition discriminate.
  - intros (code & op & g' & n' & Hgen & _ & Hn' & Herr).
    injection Hgen as _ <-. injection Hn' as <-. by apply Herr.
Qed.

(** ** Stream primitives *)

Lemma le_value_le_bytes (k : nat) :
  ∀ n, n < 256 ^ N.of_nat k → le_value (le_bytes k n) = n.
Proof.
  induction k as [|k IH]; intros n Hn.
  - cbn in *. lia.
  - cbn [le_bytes le_value foldr]. fold (le_value (le_bytes k (n / 256))).
    rewrite IH.
    + pose proof (N.div_mod n 256 ltac:(done)). lia.
    + apply N.Div0.div_lt_upper_bound.
      rewrite Nat2N.inj_succ, N.pow_succ_r' in Hn. lia.
Qed.

Lemma length_le_bytes (k : nat) (n : N) : length (le_bytes k n) = k.
Proof. revert n. induction k as [|k IH]; intros n; cbn; [done|]. by rewrite IH. Qed.

Lemma read_bytes_app (bs rest : list byte) :
  read_bytes (length bs) (bs ++ rest) = (bs, rest).
Proof.
  unfold read_bytes.
  destruct (Nat.ltb_spec (length (bs ++ rest)) (length bs)) as [Hlt|_].
  - rewrite length_app in Hlt. lia.
  - by rewrite take_app_length, drop_app_length.
Qed.

Lemma read_write_u32 (n : N) (rest : list byte) :
  n < u32_mod → read_u32 (write_u32 n ++ rest) = (n, rest).
Proof.
  intros Hn. unfold read_u32, write_u32.
  rewrite <- (length_le_bytes 4 n) at 1. rewrite read_bytes_app.
  by rewrite le_value_le_bytes.
Qed.

Lemma read_write_u64 (n : N) (rest : list byte) :
  n < u64_mod → read_u64 (write_u64 n ++ rest) = (n, rest).
Proof.
  intros Hn. unfold read_u64, write_u64.
  rewrite <- (length_le_bytes 8 n) at 1. rewrite read_bytes_app.
  by rewrite le_value_le_bytes.
Qed.

Lemma read_write_bool (b : bool) (rest : list byte) :
  read_bool (write_bool b ++ rest) = (b, rest).
Proof. by destruct b. Qed.

(** ** Variable references *)

(** C10. The type of a get-variable node is read from the variable list at
    the stored index without a check: the query has a result exactly when
    the stored index is below the number of variables, and is undefined
    otherwise.  Loading a node accepts every stored index. *)
Theorem GetVariable_getOutputType (host : Host) (fuel : nat) (g : Graph)
    (this : nat) (n : Node) (m_var idx : N) :
  m_nodes g !! this = Some n →
  data n = GetVariableNode m_var →
  getOutputType (S fuel) g this idx
  = match m_variables g !! N.to_nat m_var with
    | Some var => Done (type var)
    | None => Abort
    end
  ∧ ((∃ t, getOutputType (S fuel) g this idx = Done t)
     ↔ m_var < N.of_nat (length (m_variables g)))
  ∧ (getOutputType (S fuel) g this idx = Abort
     ↔ N.of_nat (length (m_variables g)) ≤ m_var)
  ∧ ∀ stored rest,
      stored < u32_mod →
      Node_deserialize host (default_data GET_VARIABLE)
        (write_u32 stored ++ rest)
      = (GetVariableNode stored, rest).
Proof.
  intros Hn Hd.
  assert (Heq : getOutputType (S fuel) g this idx
                = match m_variables g !! N.to_nat m_var with
                  | Some var => Done (type var)
                  | None => Abort
                  end).
  { cbn [getOutputType]. by rewrite Hn, Hd. }
  rewrite Heq. split_and!; [done| | |].
  - destruct (m_variables g !! N.to_nat m_var) as [var|] eqn:Hvar.
    + apply lookup_lt_Some in Hvar. split; [lia|by eexists].
    + apply lookup_ge_None in Hvar. split; [by intros [t ?]|lia].
  - destruct (m_variables g !! N.to_nat m_var) as [var|] eqn:Hvar.
    + apply lookup_lt_Some in Hvar. split; [done|lia].
    + apply lookup_ge_None in Hvar. split; [lia|done].
  - intros stored rest Hstored. cbn [default_data Node_deserialize].
    by rewrite read_write_u32.
Qed.

Lemma GetVariable_getOutputType_witness :
  getOutputType 1 get_variable_graph 0 0 = Done ScriptValueType.FLOAT
  ∧ getOutputType 1 get_variable_graph 1 0 = Abort
  ∧ Node_deserialize test_host (default_data GET_VARIABLE)
      (write_u32 7 ++ [])
    = (GetVariableNode 7, []).
Proof.
  split_and!.
  - exact (proj1 (GetVariable_getOutputType test_host 0 get_variable_graph 0
             (mkNode 1 (GetVariableNode 0)) 0 0 eq_refl eq_refl)).
  - exact (proj1 (GetVariable_getOutputType test_host 0 get_variable_graph 1
             (mkNode 2 (GetVariableNode 7)) 7 0 eq_refl eq_refl)).
  - apply (GetVariable_getOutputType test_host 0 get_variable_graph 0
             (mkNode 1 (GetVariableNode 0)) 0 0 eq_refl eq_refl).
    by vm_compute.
Defined.

(** ** Persistence *)

(** C6. When the first [u32] of the stream is not the magic value, or the
    second is not the supported version 0, [deserialize] returns [false]
    and the graph is left exactly as it was; so does [load], also when
    the file could not be read. *)
Theorem deserialize_fails_closed (host : Host) (blob : list byte) (g : Graph) :
  (read_u32 blob).1 ≠ MAGIC ∨ (read_u32 (read_u32 blob).2).1 ≠ 0 →
  deserialize host blob g = Done (false, g)
  ∧ load host (Some blob) g = Done (false, g)
  ∧ load host None g = Done (false, g).
Proof.
  intros Hbad.
  assert (Hde : deserialize host blob g = Done (false, g)).
  { unfold deserialize.
    destruct (read_u32 blob) as [magic blob1]. cbn [fst snd] in Hbad.
    destruct (N.eqb_spec magic MAGIC) as [Hmagic | Hmagic]; cbn [negb]; [|done].
    destruct (read_u32 blob1) as [version blob2]. cbn [fst] in Hbad.
    destruct (N.eqb_spec version 0) as [Hversion | Hversion]; cbn [negb];
      [|done].
    by destruct Hbad. }
  split_and!; [done| |done].
  cbn [load]. by rewrite Hde.
Qed.

Lemma deserialize_fails_closed_witness :
  deserialize test_host (write_u32 0x5F4C5654 ++ write_u32 0) abc_graph
  = Done (false, abc_graph)
  ∧ deserialize test_host (write_u32 MAGIC ++ write_u32 1 ++ write_u32 0)
      abc_graph
    = Done (false, abc_graph).
Proof.
  split.
  - apply (deserialize_fails_closed test_host). left. by vm_compute.
  - apply (deserialize_fails_closed test_host). right. by vm_compute.
Defined.

(** ** Reading back what the module emitter wrote *)

Lemma to_i64_small (n : N) : n < 2 ^ 63 → to_i64 n = Z.of_N n.
Proof.
  intros Hn. unfold to_i64. by destruct (N.ltb_spec n (2 ^ 63)); [|lia].
Qed.

Lemma read_leb_write (n : N) (rest : list byte) :
  n < 2 ^ 63 → read_leb (writeLEB128 n ++ rest) = Some (n, rest).
Proof.
  intros Hn. unfold read_leb.
  rewrite decode_writeLEB128.
  2:{ change u64_mod with 18446744073709551616.
      change (2 ^ 63) with 9223372036854775808 in Hn. lia. }
  rewrite to_i64_small by exact Hn.
  destruct (Z.ltb_spec (Z.of_N n) 0); [lia|]. by rewrite N2Z.id.
Qed.

Lemma read_items_imap {A B} (item : list byte → option (B * list byte))
    (l : list A) :
  ∀ (enc : nat → A → list byte) (dec : nat → A → B) (rest : list byte),
    (∀ i x rest', l !! i = Some x →
                  item (enc i x ++ rest') = Some (dec i x, rest')) →
    read_items item (length l) (mjoin (imap enc l) ++ rest)
    = Some (imap dec l, rest).
Proof.
  induction l as [|x l IH]; intros enc dec rest Hitem; [done|].
  rewrite !imap_cons. cbn [length read_items].
  change (mjoin (enc 0%nat x :: imap (enc ∘ S) l))
    with (enc 0%nat x ++ mjoin (imap (enc ∘ S) l)).
  rewrite <- app_assoc, (Hitem 0%nat x) by done. cbn.
  rewrite (IH (enc ∘ S) (dec ∘ S)); [done|].
  intros i y rest' Hy. by apply (Hitem (S i)).
Qed.

Lemma read_items_app {B} (item : list byte → option (B * list byte))
    (n1 n2 : nat) (xs ys : list B) (b b' b'' : list byte) :
  read_items item n1 b = Some (xs, b') →
  read_items item n2 b' = Some (ys, b'') →
  read_items item (n1 + n2) b = Some (xs ++ ys, b'').
Proof.
  revert xs b. induction n1 as [|n1 IH]; intros xs b; cbn.
  - by intros [= <- <-].
  - destruct (item b) as [[x b1]|]; [|done]. cbn.
    destruct (read_items item n1 b1) as [[xs1 b2]|] eqn:Hread; [|done]. cbn.
    intros [= <- <-] Hys. by rewrite (IH _ _ Hread Hys).
Qed.

Lemma read_name_writeString (s : string) (rest : list byte) :
  N.of_nat (length (c_str s)) < 2 ^ 63 →
  read_name (writeString s ++ rest) = Some (c_str s, rest).
Proof.
  intros Hlen. unfold read_name, writeString.
  rewrite <- app_assoc, read_leb_write by exact Hlen.
  cbn [mbind option_bind]. rewrite Nat2N.id.
  destruct (Nat.ltb_spec (length (c_str s ++ rest)) (length (c_str s)))
    as [Hlt|_].
  - rewrite length_app in Hlt. lia.
  - by rewrite take_app_length, drop_app_length.
Qed.







Lemma addVariableGlobals_spec (vars : list GraphVariable) :
  ∀ w w', addVariableGlobals vars w = Done w' →
    WASMWriter.m_imports w' = WASMWriter.m_imports w
    ∧ WASMWriter.m_exports w' = WASMWriter.m_exports w
    ∧ WASMWriter.m_globals w'
      = WASMWriter.m_globals w ++ map variable_global vars.
Proof.
  induction vars as [|var vars IH]; intros w w'; cbn [addVariableGlobals].
  - intros [= <-]. by rewrite app_nil_r.
  - cbn [map].
    assert (Hstep : ∀ ty,
      ty = WasmGlobal.type (variable_global var) →
      addVariableGlobals vars (WASMWriter.addGlobal ty (name var) w) = Done w' →
      WASMWriter.m_imports w' = WASMWriter.m_imports w
      ∧ WASMWriter.m_exports w' = WASMWriter.m_exports w
      ∧ WASMWriter.m_globals w'
        = WASMWriter.m_globals w ++ variable_global var :: map variable_global vars).
    { intros ty -> (-> & -> & ->)%IH. cbn. by rewrite <- app_assoc. }
    unfold variable_global in Hstep at 1. cbn in Hstep.
    destruct (type var =? ScriptValueType.I32); [by apply Hstep|].
    destruct (type var =? ScriptValueType.FLOAT); [by apply Hstep|done].
Qed.


(** The module of a graph with nothing but an update node: one export,
    ["update"], with the function index 3, whose body declares no locals and
    ends at once; and the global [self] with the index 0. *)
Example update_only_module :
  ∃ out g',
    Graph_generate test_host 1 (addNode UpdateNode empty_graph)
    = Done (out, g')
    ∧ read_sections 6 (drop 8 out)
      = Some [(1, [0x04; 0x60; 0x02; 0x7F; 0x7D; 0x00;
                   0x60; 0x03; 0x7F; 0x7E; 0x7D; 0x00;
                   0x60; 0x02; 0x7F; 0x7E; 0x01; 0x7D;
                   0x60; 0x01; 0x7D; 0x00]);
              (2, [0x03]
                  ++ writeString "LumixAPI" ++ writeString "setYaw"
                  ++ [0x00; 0x00]
                  ++ writeString "LumixAPI" ++ writeString "setPropertyFloat"
                  ++ [0x00; 0x01]
                  ++ writeString "LumixAPI" ++ writeString "getPropertyFloat"
                  ++ [0x00; 0x02]);
              (3, [0x01; 0x03]);
              (6, [0x01; 0x7F; 0x01; 0x41; 0x00; 0x0B]);
              (7, [0x02] ++ writeString "update" ++ [0x00; 0x03]
                  ++ writeString "self" ++ [0x03; 0x00]);
              (10, [0x01; 0x02; 0x00; 0x0B])].
Proof. eexists _, _. split; [by vm_compute|]. by vm_compute. Qed.

(** C5 on the graph that [createResource] builds, a single update node, with
    the counter at 1. Loading what was saved reproduces the node, but
    [createNode] advances the counter that had just been read: the counter
    of the loaded graph is 2, and saving it again changes byte 8. *)
Theorem roundtrip_counter_drifts :
  let g := addNode UpdateNode empty_graph in
  ∃ bytes bytes' g',
    serialize test_host g = Done bytes
    ∧ deserialize test_host bytes empty_graph = Done (true, g')
    ∧ m_nodes g' = m_nodes g
    ∧ m_links g' = m_links g
    ∧ m_variables g' = m_variables g
    ∧ m_node_counter g = 1
    ∧ m_node_counter g' = 2
    ∧ serialize test_host g' = Done bytes'
    ∧ bytes !! 8%nat = Some 1
    ∧ bytes' !! 8%nat = Some 2
    ∧ bytes' ≠ bytes.
Proof.
  eexists _, _, _.
  split_and!; [by vm_compute | by vm_compute | reflexivity.. | ].
  by vm_compute.
Qed.

(** *** Loading what was saved *)

Section RoundTrip.
Context (host : Host).

Lemma NodeType_of_to_u32 (t : NodeType) :
  NodeType_of_u32 (NodeType_to_u32 t) = Some t
  ∧ NodeType_to_u32 t < u32_mod.
Proof. by destruct t. Qed.

Lemma deserialize_variables_serialize (vars : list GraphVariable) :
  Forall (λ var, string_roundtrips host (name var) ∧ type var < u32_mod)
    vars →
  ∀ acc rest,
    deserialize_variables host (length vars)
      (mjoin (map (serialize_variable host) vars) ++ rest) acc
    = (acc ++ vars, rest).
Proof.
  induction 1 as [|var vars [Hname Htype] _ IH]; intros acc rest.
  - by rewrite app_nil_r.
  - cbn [length map deserialize_variables].
    change (mjoin (serialize_variable host var
                   :: map (serialize_variable host) vars))
      with (serialize_variable host var
            ++ mjoin (map (serialize_variable host) vars)).
    unfold serialize_variable at 1. rewrite <- !app_assoc, Hname.
    rewrite read_write_u32 by exact Htype.
    rewrite IH, <- app_assoc. by destruct var.
Qed.

Lemma deserialize_links_serialize (links : list NodeEditorLink) :
  Forall (λ l, from l < u32_mod ∧ to l < u32_mod) links →
  ∀ acc rest,
    deserialize_links (length links)
      (mjoin (map serialize_link links) ++ rest) acc
    = (acc ++ links, rest).
Proof.
  induction 1 as [|l links [Hfrom Hto] _ IH]; intros acc rest.
  - by rewrite app_nil_r.
  - cbn [length map deserialize_links].
    change (mjoin (serialize_link l :: map serialize_link links))
      with (serialize_link l ++ mjoin (map serialize_link links)).
    unfold serialize_link at 1. rewrite <- !app_assoc.
    rewrite !read_write_u32 by assumption.
    rewrite IH, <- app_assoc. by destruct l.
Qed.

Lemma alter_last {A} (f : A → A) (l : list A) (x : A) :
  alter f (length l) (l ++ [x]) = l ++ [f x].
Proof. induction l as [|y l IH]; cbn; [done|]. by rewrite IH. Qed.

Local Opaque write_u32.

(** Each node that is loaded advances the counter once more. *)
Lemma deserialize_nodes_serialize (nodes : list Node) :
  Forall (λ n, m_id n < u32_mod ∧ (m_pos n).1 < u32_mod
               ∧ (m_pos n).2 < u32_mod ∧ payload_roundtrips host (data n))
    nodes →
  ∀ bytes g rest,
    m_node_counter g < u32_mod →
    serialize_nodes host nodes = Done bytes →
    deserialize_nodes host (length nodes) (bytes ++ rest) g
    = Done {| m_nodes := m_nodes g ++ (with_error EmptyString <$> nodes);
              m_links := m_links g;
              m_variables := m_variables g;
              m_node_counter :=
                (m_node_counter g + N.of_nat (length nodes)) mod u32_mod |}.
Proof.
  induction 1 as [|n nodes (Hid & Hx & Hy & Hpayload) _ IH];
    intros bytes g rest Hc.
  - intros [= <-]. cbn. rewrite app_nil_r, N.add_0_r, N.mod_small by done.
    by destruct g.
  - cbn [serialize_nodes]. unfold serialize_node.
    destruct (Node_serialize host (data n)) as [payload| |] eqn:Hser;
      [|done..].
    cbn [obind].
    destruct (serialize_nodes host nodes) as [bs| |] eqn:Hrest; [|done..].
    cbn [obind]. intros [= <-].
    destruct (NodeType_of_to_u32 (getType (data n))) as [Htype Hbound].
    cbn [length deserialize_nodes].
    rewrite <- !app_assoc, read_write_u32, Htype by exact Hbound.
    rewrite !read_write_u32 by assumption.
    rewrite (Hpayload payload _ Hser).
    unfold createNode, addNode. cbn [m_nodes m_links m_variables m_node_counter].
    rewrite alter_last.
    rewrite (IH bs _ rest); [|cbn; by apply N.mod_lt|done].
    cbn [m_nodes m_links m_variables m_node_counter].
    rewrite fmap_cons, <- app_assoc. cbn [app].
    rewrite N.Div0.add_mod_idemp_l.
    do 2 f_equal.
    + unfold with_error. by destruct (m_pos n).
    + f_equal. lia.
Qed.

(** Loading the bytes that [serialize] wrote into a graph without nodes,
    links and variables gives back the nodes (with cleared diagnostics), the
    links and the variables.  The counter, however, ends up at the stored
    counter plus the number of nodes. *)
Lemma deserialize_serialize (g g0 : Graph) (bytes : list byte) :
  persistable host g →
  serialize host g = Done bytes →
  m_nodes g0 = [] → m_links g0 = [] → m_variables g0 = [] →
  deserialize host bytes g0
  = Done (true,
          {| m_nodes := with_error EmptyString <$> m_nodes g;
             m_links := m_links g;
             m_variables := m_variables g;
             m_node_counter :=
               (m_node_counter g + N.of_nat (length (m_nodes g)))
               mod u32_mod |}).
Proof.
  intros [Hc Hvars Hlinks Hnodes (Hnv & Hnl & Hnn)] Hser Hn0 Hl0 Hv0.
  unfold serialize in Hser.
  destruct (serialize_nodes host (m_nodes g)) as [nodes| |] eqn:Hns;
    [|done..].
  cbn [obind] in Hser. injection Hser as <-.
  unfold deserialize.
  rewrite read_write_u32 by by vm_compute.
  rewrite N.eqb_refl. cbn [negb].
  rewrite read_write_u32 by by vm_compute.
  cbn [N.eqb negb].
  rewrite !read_write_u32, Nat2N.id by assumption.
  rewrite deserialize_variables_serialize by exact Hvars.
  rewrite read_write_u32, Nat2N.id by assumption.
  rewrite deserialize_links_serialize by exact Hlinks.
  rewrite read_write_u32, Nat2N.id by assumption.
  rewrite <- (app_nil_r nodes).
  erewrite (deserialize_nodes_serialize _ Hnodes nodes _ []); [|exact Hc|exact Hns].
  cbn [obind m_nodes m_links m_variables m_node_counter].
  by rewrite Hn0, Hl0, Hv0.
Qed.

(** Saving the loaded graph again changes the counter field whenever the
    graph has a node (and fewer than 2^32 of them). *)
Lemma reloaded_counter_differs (g : Graph) :
  persistable host g → m_nodes g ≠ [] →
  (m_node_counter g + N.of_nat (length (m_nodes g))) mod u32_mod
  ≠ m_node_counter g.
Proof.
  intros [Hc _ _ _ (_ & _ & Hnn)] Hne.
  assert (0 < N.of_nat (length (m_nodes g))).
  { destruct (m_nodes g); [done|cbn; lia]. }
  destruct (N.lt_ge_cases (m_node_counter g + N.of_nat (length (m_nodes g)))
              u32_mod) as [Hlt | Hge].
  - rewrite N.mod_small by exact Hlt. lia.
  - assert (Hmod : (m_node_counter g + N.of_nat (length (m_nodes g)))
                   mod u32_mod
                   = m_node_counter g + N.of_nat (length (m_nodes g))
                     - u32_mod).
    { symmetry. apply N.mod_unique with (q := 1); lia. }
    rewrite Hmod. lia.
Qed.

Local Transparent write_u32.

End RoundTrip.

(** The graph [faulty_yaw_graph] can be saved and loaded with the example
    host; loaded back, its counter is 8 instead of 4. *)
Example faulty_yaw_graph_persistable : persistable test_host faulty_yaw_graph.
Proof.
  split.
  - by vm_compute.
  - repeat constructor.
  - repeat constructor.
  - repeat (apply Forall_cons; split; [split_and!; try by vm_compute|]);
      [..|by apply Forall_nil].
    all: intros payload rest [= <-]; try reflexivity.
  - by vm_compute.
Qed.

Example faulty_yaw_graph_reloaded :
  ∃ bytes g',
    serialize test_host faulty_yaw_graph = Done bytes
    ∧ deserialize test_host bytes empty_graph = Done (true, g')
    ∧ m_nodes g' = m_nodes faulty_yaw_graph
    ∧ m_node_counter g' = 8.
Proof.
  destruct (serialize test_host faulty_yaw_graph) as [bytes| |] eqn:Hser;
    [|by vm_compute in Hser..].
  eexists bytes, _. split; [done|]. split.
  - by apply (deserialize_serialize test_host faulty_yaw_graph empty_graph
                bytes faulty_yaw_graph_persistable).
  - by vm_compute.
Qed.

(** ** More on the variable-length integers *)

Lemma lor_0x80 (b : N) : b < 128 → N.lor b 0x80 = b + 128.
Proof. intros Hb. apply (lor_shiftl_add b 1 7 Hb). Qed.

(** X1. [writeLEB128] writes at least one byte; every byte but the last has
    the continuation bit set and seven payload bits below it, the last byte
    has the continuation bit clear. *)
Theorem writeLEB128_shape (val : N) :
  ∃ init last,
    writeLEB128 val = init ++ [last]
    ∧ last < 128
    ∧ Forall (λ b, 128 ≤ b < 256) init.
Proof.
  induction val as [val IH] using (well_founded_induction N.lt_wf_0).
  assert (Hbyte : val mod 128 < 128) by (apply N.mod_lt; lia).
  rewrite writeLEB128_eq.
  destruct (leb_end (N.shiftr val 7) (N.land val 127)) eqn:Hend.
  - exists [], (N.land val 127). rewrite land_7f. by split_and!.
  - destruct (IH (N.shiftr val 7)) as (init & last & Heq & Hlast & Hinit).
    { rewrite shiftr_7. apply N.div_lt; [|lia].
      destruct (N.eq_dec val 0) as [-> | ?]; [discriminate Hend | lia]. }
    exists (N.lor (N.land val 127) 128 :: init), last.
    rewrite Heq. split_and!; [done | done |].
    apply Forall_cons. split; [|done].
    cbn beta. rewrite land_7f, lor_0x80 by exact Hbyte.
    clear -Hbyte. revert Hbyte. generalize (val mod 128). intros; lia.
Qed.

(** X2. A value below [2^(7k-1)] is written in at most [k] bytes; so a
    32-bit value takes at most five bytes and a 64-bit value at most ten. *)
Theorem writeLEB128_length (k : nat) (val : N) :
  val < 2 ^ (7 * N.of_nat (S k) - 1) →
  (length (writeLEB128 val) ≤ S k)%nat.
Proof.
  revert val. induction k as [|k IH]; intros val Hval.
  - change (2 ^ (7 * N.of_nat 1 - 1)) with 64 in Hval.
    rewrite writeLEB128_eq, shiftr_7, land_7f.
    rewrite N.div_small, N.mod_small by lia.
    unfold leb_end. change 64 with (2 ^ 6) at 1.
    rewrite land_pow2_small by (change (2 ^ 6) with 64; lia).
    cbn. lia.
  - rewrite writeLEB128_eq.
    destruct (leb_end (N.shiftr val 7) (N.land val 127)); [cbn; lia|].
    cbn [length]. apply le_n_S, IH.
    rewrite shiftr_7. apply N.Div0.div_lt_upper_bound.
    replace (7 * N.of_nat (S (S k)) - 1) with (7 + (7 * N.of_nat (S k) - 1))
      in Hval by lia.
    rewrite N.pow_add_r in Hval. change (2 ^ 7) with 128 in Hval. lia.
Qed.

Lemma writeLEB128_length_witness :
  (length (writeLEB128 0xFFFFFFFF) ≤ 5)%nat
  ∧ (length (writeLEB128 0xFFFFFFFFFFFFFFFF) ≤ 10)%nat.
Proof.
  split.
  - apply (writeLEB128_length 4). by vm_compute.
  - apply (writeLEB128_length 9). by vm_compute.
Defined.

(** X3. Read as an unsigned LEB128 number, the bytes written for a 64-bit
    value give back that value.  The sizes and indices of a module are
    unsigned fields written with the same function. *)
Theorem writeLEB128_unsigned_roundtrip (val : N) (rest : list byte) :
  val < u64_mod →
  decodeULEB128 (writeLEB128 val ++ rest) = Some (val, rest).
Proof.
  intros Hval. unfold decodeULEB128.
  destruct (decode_write_loop val 0 0 rest) as (shift & b & Hdec & _);
    [lia | exact Hval | done |].
  rewrite Hdec. by rewrite N.add_0_l, N.pow_0_r, N.mul_1_r.
Qed.

Lemma writeLEB128_unsigned_roundtrip_witness :
  decodeULEB128 (writeLEB128 0xFFFFFFFFFFFFFFFF ++ [0x0B])
  = Some (0xFFFFFFFFFFFFFFFF, [0x0B])
  ∧ decodeULEB128 (writeLEB128 64) = Some (64, []).
Proof.
  split.
  - apply writeLEB128_unsigned_roundtrip. by vm_compute.
  - rewrite <- (app_nil_r (writeLEB128 64)).
    apply writeLEB128_unsigned_roundtrip. by vm_compute.
Defined.

(** ** The whole compilation only touches the diagnostics *)

Lemma code_entries_keeps (host : Host) (fuel : nat)
    (exports : list WasmExport.t) :
  ∀ g, keeps g (WASMWriter.code_entries host fuel exports g).
Proof.
  induction exports as [|code rest IH]; intros g out g'; cbn.
  - by intros [= _ <-].
  - destruct (generate host fuel (WasmExport.node code) 0 g)
      as [[func_blob g1]| |] eqn:Hgen; [|done..]. cbn [obind].
    destruct (WASMWriter.code_entries host fuel rest g1)
      as [[bs g2]| |] eqn:Hrest; [|done..]. cbn [obind].
    intros [= _ <-]. rewrite (IH g1 bs g2 Hrest).
    eapply generate_keeps. exact Hgen.
Qed.

Lemma Graph_generate_keeps (host : Host) (fuel : nat) (g : Graph) :
  keeps g (Graph_generate host fuel g).
Proof.
  intros out g'. unfold Graph_generate.
  destruct (configureWriter (clearErrors g)) as [w| |]; [|done..].
  cbn [obind]. unfold WASMWriter.write.
  destruct (WASMWriter.global_section w); [|done..]. cbn [obind].
  unfold WASMWriter.code_section.
  destruct (WASMWriter.code_entries host fuel (WASMWriter.m_exports w)
              (clearErrors g)) as [[es g1]| |] eqn:Hcode; [|done..].
  cbn [obind]. intros [= _ <-].
  rewrite (code_entries_keeps host fuel _ _ es g1 Hcode).
  unfold clearErrors. cbn. f_equal.
  induction (m_nodes g) as [|n l IH]; cbn; [done|]. by rewrite IH.
Qed.

(** X4. Generating code changes nothing but diagnostics: whatever
    [generate] of a node or [Graph::generate] returns, the links, the
    variables, the counter and the identifier, position and payload of
    every node are as before. *)
Theorem generate_changes_only_diagnostics (host : Host) (fuel : nat)
    (g g' : Graph) (out : list byte) :
  (∃ this output_idx, generate host fuel this output_idx g = Done (out, g'))
  ∨ Graph_generate host fuel g = Done (out, g') →
  m_links g' = m_links g
  ∧ m_variables g' = m_variables g
  ∧ m_node_counter g' = m_node_counter g
  ∧ length (m_nodes g') = length (m_nodes g)
  ∧ ∀ i n', m_nodes g' !! i = Some n' →
      ∃ n, m_nodes g !! i = Some n
           ∧ m_id n' = m_id n ∧ m_pos n' = m_pos n ∧ data n' = data n.
Proof.
  intros [(this & output_idx & Hgen) | Hgen]; apply clearErrors_eq.
  - eapply generate_keeps. exact Hgen.
  - eapply Graph_generate_keeps. exact Hgen.
Qed.

Lemma generate_changes_only_diagnostics_witness :
  ∃ g', generate test_host 3 1 0 faulty_yaw_graph = Done ([], g')
        ∧ m_links g' = m_links faulty_yaw_graph
        ∧ data <$> m_nodes g' = data <$> m_nodes faulty_yaw_graph
        ∧ m_error <$> m_nodes g' !! 1%nat = Some "Missing inputs".
Proof.
  eexists. split; [reflexivity|].
  destruct (generate_changes_only_diagnostics test_host 3 faulty_yaw_graph
              _ [] (or_introl (ex_intro _ 1%nat (ex_intro _ 0 eq_refl))))
    as (Hlinks & _).
  split; [exact Hlinks|]. split; reflexivity.
Defined.

(** X5. [Graph::generate] can be called again on the graph it leaves
    behind: with the same diagnostics it writes the same bytes and leaves
    the same graph.  The diagnostics a graph had before do not influence
    the result. *)
Theorem Graph_generate_idempotent (host : Host) (fuel : nat) (g g' : Graph)
    (out : list byte) :
  Graph_generate host fuel g = Done (out, g') →
  Graph_generate host fuel g' = Done (out, g')
  ∧ ∀ this msg,
      Graph_generate host fuel (setError this msg g) = Done (out, g').
Proof.
  intros Hgen.
  pose proof (Graph_generate_keeps host fuel g out g' Hgen) as Hkeep.
  unfold Graph_generate in *. split.
  - by rewrite Hkeep.
  - intros this msg. by rewrite clearErrors_setError.
Qed.

Lemma Graph_generate_idempotent_witness :
  ∃ out g',
    Graph_generate test_host 5 faulty_yaw_graph = Done (out, g')
    ∧ Graph_generate test_host 5 g' = Done (out, g')
    ∧ m_error <$> m_nodes g' !! 1%nat = Some "Missing inputs".
Proof.
  destruct (Graph_generate test_host 5 faulty_yaw_graph)
    as [[out g']| |] eqn:Hgen; [|by vm_compute in Hgen..].
  exists out, g'. split; [done|]. split.
  - exact (proj1 (Graph_generate_idempotent test_host 5 faulty_yaw_graph g'
                    out Hgen)).
  - vm_compute in Hgen. by injection Hgen as _ <-.
Defined.

(** ** The configuration of the module emitter *)

Lemma addVariableGlobals_outcome (vars : list GraphVariable) :
  ∀ w,
    (Forall global_type_supported vars
     ∧ ∃ w', addVariableGlobals vars w = Done w')
    ∨ (Exists (λ var, ¬ global_type_supported var) vars
       ∧ addVariableGlobals vars w = Abort).
Proof.
  unfold global_type_supported.
  induction vars as [|var vars IH]; intros w; cbn [addVariableGlobals].
  - left. split; [constructor | by eexists].
  - destruct (N.eqb_spec (type var) ScriptValueType.I32) as [HI | HI];
      [|destruct (N.eqb_spec (type var) ScriptValueType.FLOAT) as [HF | HF]].
    1, 2: match goal with
          | |- context [addVariableGlobals _ ?w1] =>
              destruct (IH w1) as [[Hall Hdone] | [Hex Habort]]
          end.
    1, 3: left; split; [apply Forall_cons; tauto | done].
    1, 2: right; split; [by apply Exists_cons_tl | done].
    right. split; [|done]. apply Exists_cons_hd. tauto.
Qed.

Lemma supported_or_not (vars : list GraphVariable) :
  Forall global_type_supported vars →
  Exists (λ var, ¬ global_type_supported var) vars → False.
Proof.
  intros Hall (var & Hin & Hnot)%Exists_exists.
  rewrite Forall_forall in Hall. by apply Hnot, Hall.
Qed.

(** X6. [Graph::generate] gets past the declaration of the globals exactly
    when every variable of the graph has the type [I32] or [FLOAT]; with a
    variable of any other type (the editor offers [u32] and [entity] too)
    it runs into the [ASSERT(false)] of the loop, whatever the nodes are. *)
Theorem configureWriter_variable_types (g : Graph) :
  ((∃ w, configureWriter g = Done w)
   ↔ Forall global_type_supported (m_variables g))
  ∧ (configureWriter g = Abort
     ↔ ∃ var, var ∈ m_variables g ∧ ¬ global_type_supported var)
  ∧ ∀ host fuel var,
      var ∈ m_variables g → ¬ global_type_supported var →
      Graph_generate host fuel g = Abort.
Proof.
  assert (Hcases : ∀ g0, m_variables g0 = m_variables g →
    (Forall global_type_supported (m_variables g)
     ∧ ∃ w', configureWriter g0 = Done w')
    ∨ (Exists (λ var, ¬ global_type_supported var) (m_variables g)
       ∧ configureWriter g0 = Abort)).
  { intros g0 <-. unfold configureWriter. apply addVariableGlobals_outcome. }
  split_and!.
  - destruct (Hcases g eq_refl) as [[Hall Hdone] | [Hex Habort]].
    + by split.
    + split.
      * rewrite Habort. by intros [w ?].
      * intros Hall. destruct (supported_or_not _ Hall Hex).
  - rewrite <- Exists_exists.
    destruct (Hcases g eq_refl) as [[Hall [w Hdone]] | [Hex Habort]].
    + rewrite Hdone. split; [done|].
      intros Hex. destruct (supported_or_not _ Hall Hex).
    + by split.
  - intros host fuel var Hin Hnot. unfold Graph_generate.
    destruct (Hcases (clearErrors g) eq_refl) as [[Hall _] | [_ Habort]].
    + rewrite Forall_forall in Hall. destruct (Hnot (Hall var Hin)).
    + by rewrite Habort.
Qed.

Lemma configureWriter_variable_types_witness :
  Graph_generate test_host 5 two_updates_graph = Abort.
Proof.
  apply (proj2 (proj2 (configureWriter_variable_types two_updates_graph))
           test_host 5%nat
           {| name := "target"; type := ScriptValueType.ENTITY |}).
  - by apply list_elem_of_singleton.
  - by intros [? | ?].
Defined.

Lemma configureWriter_exports (g : Graph) (w : WASMWriter.t) :
  configureWriter g = Done w →
  WASMWriter.m_exports w = entry_points ≫= entry_export g.
Proof.
  unfold configureWriter, addExport, addImport.
  intros (_ & -> & _)%addVariableGlobals_spec.
  unfold entry_points. cbn [mbind list_bind entry_export app].
  by destruct (find_index _ (m_nodes g)), (find_index _ (m_nodes g)),
    (find_index _ (m_nodes g)), (find_index _ (m_nodes g)).
Qed.

(** X7. The exports of the module are the entry points, in the order
    update, mouse move, key event, start, for which the graph has a node:
    an entry point is bound to the first node of its type in [m_nodes], and
    it is left out, without an error, when the graph has no node of the
    type. *)
Theorem entry_points_registered (g : Graph) (w : WASMWriter.t) :
  configureWriter g = Done w →
  WasmExport.name <$> WASMWriter.m_exports w
    `sublist_of` ["update"; "onMouseMove"; "onKeyEvent"; "start"]
  ∧ ∀ node_type entry_name args,
      (node_type, entry_name, args) ∈ entry_points →
      (∀ i n,
         m_nodes g !! i = Some n → getType (data n) = node_type →
         (∀ j m, (j < i)%nat → m_nodes g !! j = Some m →
                 getType (data m) ≠ node_type) →
         ∀ e, (e ∈ WASMWriter.m_exports w ∧ WasmExport.name e = entry_name)
              ↔ e = {| WasmExport.node := i; WasmExport.name := entry_name;
                       WasmExport.args := args |})
      ∧ ((∀ n, n ∈ m_nodes g → getType (data n) ≠ node_type) →
         ∀ e, e ∈ WASMWriter.m_exports w → WasmExport.name e ≠ entry_name).
Proof.
  intros Hw. pose proof (configureWriter_exports g w Hw) as Hexports.
  split.
  all: rewrite ?Hexports.
  { unfold entry_points. cbn [mbind list_bind entry_export app].
    destruct (find_index _ (m_nodes g)), (find_index _ (m_nodes g)),
      (find_index _ (m_nodes g)), (find_index _ (m_nodes g)); cbn;
      repeat first [apply sublist_nil | apply sublist_skip
                   | apply sublist_cons]. }
  intros node_type entry_name args Hentry.
  assert (Hfind : ∀ i n,
    m_nodes g !! i = Some n → getType (data n) = node_type →
    (∀ j m, (j < i)%nat → m_nodes g !! j = Some m →
            getType (data m) ≠ node_type) →
    find_index (λ n, bool_decide (getType (data n) = node_type)) (m_nodes g)
    = Some i).
  { intros i n Hn Ht Hfirst.
    destruct (find_index _ _) as [k|] eqn:Hk.
    - apply find_index_Some in Hk as (x & Hx & Hpx & Hbefore).
      apply bool_decide_eq_true in Hpx. f_equal.
      destruct (Nat.lt_trichotomy k i) as [Hlt | [-> | Hgt]]; [|done|].
      + destruct (Hfirst k x Hlt Hx Hpx).
      + specialize (Hbefore i n Hgt Hn).
        apply bool_decide_eq_false in Hbefore. by destruct Hbefore.
    - rewrite find_index_None in Hk.
      specialize (Hk n (list_elem_of_lookup_2 _ _ _ Hn)).
      apply bool_decide_eq_false in Hk. by destruct Hk. }
  assert (Hnone : (∀ n, n ∈ m_nodes g → getType (data n) ≠ node_type) →
    find_index (λ n, bool_decide (getType (data n) = node_type)) (m_nodes g)
    = None).
  { intros Hno. apply find_index_None. intros n Hn.
    apply bool_decide_eq_false. by apply Hno. }
  unfold entry_points in *. cbn [mbind list_bind entry_export app].
  rewrite !elem_of_cons, elem_of_nil in Hentry.
  split.
  - intros i n Hn Ht Hfirst e. specialize (Hfind i n Hn Ht Hfirst).

    destruct Hentry as [H | [H | [H | [H | []]]]];
      injection H as -> -> ->; rewrite Hfind; clear;
      destruct (find_index _ (m_nodes g)), (find_index _ (m_nodes g)),
        (find_index _ (m_nodes g));
      cbn [app]; rewrite ?elem_of_cons, ?elem_of_nil;
      (split; [intros [He Hname]; repeat destruct He as [-> | He];
                 try destruct He; by simplify_eq/=
              | intros ->; split; [repeat first [by left | right] | done]]).
  - intros Hno e. specialize (Hnone Hno).

    destruct Hentry as [H | [H | [H | [H | []]]]];
      injection H as -> -> ->; rewrite Hnone; clear;
      destruct (find_index _ (m_nodes g)), (find_index _ (m_nodes g)),
        (find_index _ (m_nodes g));
      cbn [app]; rewrite ?elem_of_cons, ?elem_of_nil;
      intros He; repeat destruct He as [-> | He]; try destruct He; done.
Qed.

Lemma entry_points_registered_witness :
  ∃ w, configureWriter entry_graph = Done w
       ∧ {| WasmExport.node := 1; WasmExport.name := "update";
            WasmExport.args := [F32] |} ∈ WASMWriter.m_exports w
       ∧ ∀ e, e ∈ WASMWriter.m_exports w → WasmExport.name e ≠ "onKeyEvent".
Proof.
  eexists. split; [reflexivity|].
  destruct (entry_points_registered entry_graph _ eq_refl) as [_ Hentries].
  split.
  - destruct (Hentries UPDATE "update" [F32]) as [Hfirst _].
    { apply list_elem_of_here. }
    apply (Hfirst 1%nat (mkNode 2 UpdateNode) eq_refl eq_refl); [|done].
    intros [|j] m Hj Hm; [|lia]. injection Hm as <-. discriminate.
  - destruct (Hentries KEY_INPUT "onKeyEvent" [I32]) as [_ Hnone].
    { do 2 apply list_elem_of_further. apply list_elem_of_here. }
    apply Hnone. intros n Hn.
    unfold entry_graph in Hn. cbn in Hn.
    rewrite !elem_of_cons, elem_of_nil in Hn.
    by destruct Hn as [-> | [-> | [-> | []]]].
Defined.

(** ** The other sections of the module *)

Lemma read_items_map {A B} (item : list byte → option (B * list byte))
    (enc : A → list byte) (dec : A → B) (l : list A) (rest : list byte) :
  (∀ x rest', x ∈ l → item (enc x ++ rest') = Some (dec x, rest')) →
  read_items item (length l) (mjoin (map enc l) ++ rest)
  = Some (dec <$> l, rest).
Proof.
  induction l as [|x l IH]; intros Hitem; [done|].
  cbn [length read_items map].
  change (mjoin (enc x :: map enc l)) with (enc x ++ mjoin (map enc l)).
  rewrite <- app_assoc, Hitem by apply list_elem_of_here.
  cbn [mbind option_bind]. rewrite IH; [done|].
  intros y rest' Hy. apply Hitem. by apply list_elem_of_further.
Qed.

Lemma read_counted_write (bs rest : list byte) :
  N.of_nat (length bs) < 256 →
  read_counted (N.of_nat (length bs) mod 256 :: bs ++ rest) = Some (bs, rest).
Proof.
  intros Hlen. unfold read_counted.
  rewrite N.mod_small, Nat2N.id by exact Hlen.
  destruct (Nat.ltb_spec (length (bs ++ rest)) (length bs)) as [Hlt|_].
  - rewrite length_app in Hlt. lia.
  - by rewrite take_app_length, drop_app_length.
Qed.

Lemma read_functype_write (params results rest : list byte) (count : N) :
  N.of_nat (length params) < 256 →
  count = N.of_nat (length results) → count < 256 →
  read_functype
    ([0x60; N.of_nat (length params) mod 256] ++ params
     ++ (count :: results) ++ rest)
  = Some (params, results, rest).
Proof.
  intros Hparams -> Hresults. cbn [app read_functype N.eqb Pos.eqb].
  rewrite read_counted_write by exact Hparams. cbn [mbind option_bind].
  rewrite <- (N.mod_small (N.of_nat (length results)) 256) at 1
    by exact Hresults.
  by rewrite read_counted_write.
Qed.

(** X8. The type section lists one function type per import, in the order
    of the imports, and then one per export, in the order of the exports:
    the parameters as declared, no result for an export and for an import
    that returns [VOID], the one result type otherwise.  So the signature
    of import [i] has the index [i] and the one of export [k] the index
    [imports + k]. *)
Theorem type_section_read (w : WASMWriter.t) :
  N.of_nat (length (WASMWriter.m_imports w)
            + length (WASMWriter.m_exports w)) < 2 ^ 63 →
  Forall (λ import, N.of_nat (length (WasmImport.args import)) < 256)
    (WASMWriter.m_imports w) →
  Forall (λ e, N.of_nat (length (WasmExport.args e)) < 256)
    (WASMWriter.m_exports w) →
  read_vec read_functype (WASMWriter.type_section w)
  = Some ((import_functype <$> WASMWriter.m_imports w)
          ++ (export_functype <$> WASMWriter.m_exports w), []).
Proof.
  intros Hsize Himports Hexports.
  unfold read_vec, WASMWriter.type_section.
  rewrite read_leb_write by exact Hsize.
  cbn [mbind option_bind]. rewrite Nat2N.id.
  eapply read_items_app.
  - apply read_items_map. intros import rest' Hin.
    rewrite Forall_forall in Himports. specialize (Himports import Hin).
    unfold WASMWriter.import_signature, import_functype.
    rewrite <- !app_assoc.
    rewrite <- (length_map WASMType_byte (WasmImport.args import)) in *.
    destruct (WasmImport.ret_type import);
      by rewrite read_functype_write.
  - rewrite <- (app_nil_r (mjoin _)).
    apply read_items_map. intros e rest' Hin.
    rewrite Forall_forall in Hexports. specialize (Hexports e Hin).
    unfold WASMWriter.export_signature, export_functype.
    rewrite <- !app_assoc.
    rewrite <- (length_map WASMType_byte (WasmExport.args e)) in *.
    by rewrite read_functype_write.
Qed.

Lemma type_section_read_witness :
  ∃ w, configureWriter entry_graph = Done w
       ∧ read_vec read_functype (WASMWriter.type_section w)
         = Some ([([0x7F; 0x7D], []); ([0x7F; 0x7E; 0x7D], []);
                  ([0x7F; 0x7E], [0x7D]); ([0x7D], []); ([], [])], []).
Proof.
  eexists. split; [reflexivity|].
  match goal with
  | |- read_vec _ (WASMWriter.type_section ?w) = _ =>
      change (read_vec read_functype (WASMWriter.type_section w)
              = Some ((import_functype <$> WASMWriter.m_imports w)
                      ++ (export_functype <$> WASMWriter.m_exports w), []))
  end.
  apply type_section_read; [by vm_compute | repeat constructor..].
Defined.

(** X9. The import section lists the imports in the order of their
    declaration, each with its module name, its field name, the kind
    "function" and its own position as the index of its signature. *)
Theorem import_section_read (w : WASMWriter.t) :
  N.of_nat (length (WASMWriter.m_imports w)) < 2 ^ 63 →
  Forall (λ import,
            N.of_nat (length (c_str (WasmImport.module_name import))) < 2 ^ 63
            ∧ N.of_nat (length (c_str (WasmImport.field_name import)))
              < 2 ^ 63)
    (WASMWriter.m_imports w) →
  read_vec read_import (WASMWriter.import_section w)
  = Some (imap (λ i import,
                  (c_str (WasmImport.module_name import),
                   c_str (WasmImport.field_name import),
                   WASMExternalType_byte EXT_FUNCTION, N.of_nat i))
            (WASMWriter.m_imports w), []).
Proof.
  intros Hsize Hnames. unfold read_vec, WASMWriter.import_section.
  rewrite read_leb_write by exact Hsize.
  cbn [mbind option_bind]. rewrite Nat2N.id.
  rewrite <- (app_nil_r (mjoin _)).
  apply read_items_imap. intros i import rest' Hi.
  destruct (Forall_lookup_1 _ _ _ _ Hnames Hi) as [Hmodule Hfield].
  apply lookup_lt_Some in Hi.
  unfold read_import. rewrite <- !app_assoc.
  rewrite read_name_writeString by exact Hmodule. cbn [mbind option_bind].
  rewrite read_name_writeString by exact Hfield. cbn [mbind option_bind app].
  by rewrite read_leb_write by lia.
Qed.

Lemma import_section_read_witness :
  ∃ w, configureWriter entry_graph = Done w
       ∧ read_vec read_import (WASMWriter.import_section w)
         = Some ([(c_str "LumixAPI", c_str "setYaw", 0, 0);
                  (c_str "LumixAPI", c_str "setPropertyFloat", 0, 1);
                  (c_str "LumixAPI", c_str "getPropertyFloat", 0, 2)], []).
Proof.
  eexists. split; [reflexivity|].
  match goal with
  | |- read_vec _ (WASMWriter.import_section ?w) = _ =>
      change (read_vec read_import (WASMWriter.import_section w)
              = Some (imap (λ i import,
                        (c_str (WasmImport.module_name import),
                         c_str (WasmImport.field_name import),
                         WASMExternalType_byte EXT_FUNCTION, N.of_nat i))
                        (WASMWriter.m_imports w), []))
  end.
  apply import_section_read; [by vm_compute|].
  repeat constructor.
Defined.

Lemma global_entries_outcome (globals : list WasmGlobal.t) :
  (Forall (λ g, WasmGlobal.type g ≠ VOID) globals
   ∧ ∃ bytes, WASMWriter.global_entries globals = Done bytes
      ∧ ∀ rest, read_items read_global (length globals) (bytes ++ rest)
                = Some ((λ g, (WASMType_byte (WasmGlobal.type g), 1,
                               (zero_initializer (WasmGlobal.type g)).1,
                               (zero_initializer (WasmGlobal.type g)).2))
                        <$> globals, rest))
  ∨ (Exists (λ g, WasmGlobal.type g = VOID) globals
     ∧ WASMWriter.global_entries globals = Abort).
Proof.
  induction globals as [|g globals IH]; cbn [WASMWriter.global_entries].
  - left. split; [constructor|]. by exists [].
  - unfold WASMWriter.global_entry.
    destruct (WasmGlobal.type g) eqn:Hty; cbn [obind];
      [..|right; split; [by apply Exists_cons_hd | done]].
    all: destruct IH as [[Hall (bytes & -> & Hread)] | [Hex ->]];
      [left | right; split; [by apply Exists_cons_tl | done]].
    all: split; [apply Forall_cons; split; [by rewrite Hty | done]|].
    all: cbn [obind]; eexists; split; [reflexivity|].
    all: intros rest; cbn [length read_items].
    all: rewrite <- app_assoc; cbn -[read_items].
    all: rewrite ?drop_0, Hread, Hty; reflexivity.
Qed.

(** X10. Every global is declared mutable and initialised with the zero
    constant of its own type; the global section can be written exactly
    when no global has the type [VOID]. *)
Theorem global_section_read (w : WASMWriter.t) :
  N.of_nat (length (WASMWriter.m_globals w)) < 2 ^ 63 →
  (WASMWriter.global_section w = Abort
   ↔ ∃ g, g ∈ WASMWriter.m_globals w ∧ WasmGlobal.type g = VOID)
  ∧ ∀ bytes,
      WASMWriter.global_section w = Done bytes →
      read_vec read_global bytes
      = Some ((λ g, (WASMType_byte (WasmGlobal.type g), 1,
                     (zero_initializer (WasmGlobal.type g)).1,
                     (zero_initializer (WasmGlobal.type g)).2))
              <$> WASMWriter.m_globals w, []).
Proof.
  intros Hsize. unfold WASMWriter.global_section. rewrite <- Exists_exists.
  destruct (global_entries_outcome (WASMWriter.m_globals w))
    as [[Hall (es & -> & Hread)] | [Hex ->]]; cbn [obind].
  - split.
    + split; [done|]. intros (g & Hin & Hvoid)%Exists_exists.
      rewrite Forall_forall in Hall. by destruct (Hall g Hin).
    + intros bytes [= <-]. unfold read_vec.
      rewrite read_leb_write by exact Hsize.
      cbn [mbind option_bind]. rewrite Nat2N.id.
      rewrite <- (app_nil_r es). apply Hread.
  - by split.
Qed.

Lemma global_section_read_witness :
  ∃ w bytes,
    configureWriter faulty_yaw_graph = Done w
    ∧ WASMWriter.global_section w = Done bytes
    ∧ read_vec read_global bytes
      = Some ([(0x7F, 1, 0x41, [0]); (0x7D, 1, 0x43, [0; 0; 0; 0])], []).
Proof.
  eexists _, _. split; [reflexivity|]. split; [reflexivity|].
  match goal with
  | |- read_vec _ ?bytes = _ =>
      exact (proj2 (global_section_read
                      (default WASMWriter.empty
                         (match configureWriter faulty_yaw_graph with
                          | Done w => Some w
                          | _ => None
                          end))
                      ltac:(by vm_compute)) bytes eq_refl)
  end.
Defined.

Lemma read_name_body (body rest : list byte) :
  N.of_nat (length body) < u32_mod →
  read_name (writeLEB128 (to_u32 (N.of_nat (length body))) ++ body ++ rest)
  = Some (body, rest).
Proof.
  intros Hlen. unfold read_name, to_u32.
  rewrite N.mod_small by exact Hlen.
  rewrite read_leb_write.
  2:{ change u32_mod with 4294967296 in Hlen.
      change (2 ^ 63) with 9223372036854775808. lia. }
  cbn [mbind option_bind]. rewrite Nat2N.id.
  destruct (Nat.ltb_spec (length (body ++ rest)) (length body)) as [Hlt|_].
  - rewrite length_app in Hlt. lia.
  - by rewrite take_app_length, drop_app_length.
Qed.

Lemma code_entries_read (host : Host) (fuel : nat)
    (exports : list WasmExport.t) :
  ∀ g es g',
    WASMWriter.code_entries host fuel exports g = Done (es, g') →
    ∃ bodies,
      Forall2 (λ e body, ∃ g1 g2,
                 clearErrors g1 = clearErrors g
                 ∧ generate host fuel (WasmExport.node e) 0 g1
                   = Done (body, g2)) exports bodies
      ∧ (Forall (λ body, N.of_nat (length body) < u32_mod) bodies →
         ∀ rest, read_items read_name (length exports) (es ++ rest)
                 = Some (bodies, rest)).
Proof.
  induction exports as [|code exports IH]; intros g es g';
    cbn [WASMWriter.code_entries].
  - intros [= <- <-]. exists []. split; [constructor | done].
  - destruct (generate host fuel (WasmExport.node code) 0 g)
      as [[func_blob g1]| |] eqn:Hgen; [|done..]. cbn [obind].
    destruct (WASMWriter.code_entries host fuel exports g1)
      as [[bs g2]| |] eqn:Hrest; [|done..]. cbn [obind].
    intros [= <- <-].
    destruct (IH g1 bs g2 Hrest) as (bodies & Hbodies & Hread).
    pose proof (generate_keeps host fuel _ _ _ _ _ Hgen) as Hkeep.
    exists (func_blob :: bodies). split.
    + constructor; [by exists g, g1|].
      eapply Forall2_impl; [exact Hbodies|].
      intros e body (ga & gb & Hga & Hgb). exists ga, gb.
      split; [congruence | done].
    + intros [Hsmall Hall]%Forall_cons rest. cbn [length read_items].
      rewrite <- !app_assoc, read_name_body by exact Hsmall.
      cbn [mbind option_bind]. by rewrite Hread.
Qed.

(** X11. The code section holds one function body per export, in the order
    of the exports, each preceded by its length: the body of an export is
    what [generate] of its node appends for selector [0], run on the graph
    as the bodies before it left it (the same graph but for
    diagnostics). *)
Theorem code_section_read (host : Host) (fuel : nat) (w : WASMWriter.t)
    (g g' : Graph) (code : list byte) :
  WASMWriter.code_section host fuel w g = Done (code, g') →
  N.of_nat (length (WASMWriter.m_exports w)) < 2 ^ 63 →
  ∃ bodies,
    Forall2 (λ e body, ∃ g1 g2,
               clearErrors g1 = clearErrors g
               ∧ generate host fuel (WasmExport.node e) 0 g1
                 = Done (body, g2)) (WASMWriter.m_exports w) bodies
    ∧ (Forall (λ body, N.of_nat (length body) < u32_mod) bodies →
       read_vec read_name code = Some (bodies, [])).
Proof.
  unfold WASMWriter.code_section. intros Hcode Hsize.
  destruct (WASMWriter.code_entries host fuel (WASMWriter.m_exports w) g)
    as [[es g1]| |] eqn:Hes; [|done..].
  cbn [obind] in Hcode. injection Hcode as <- <-.
  destruct (code_entries_read host fuel _ _ _ _ Hes)
    as (bodies & Hbodies & Hread).
  exists bodies. split; [done|]. intros Hsmall. unfold read_vec.
  rewrite read_leb_write by exact Hsize.
  cbn [mbind option_bind]. rewrite Nat2N.id.
  rewrite <- (app_nil_r es). by apply Hread.
Qed.

Lemma code_section_read_witness :
  ∃ w code g',
    configureWriter entry_graph = Done w
    ∧ WASMWriter.code_section test_host 2 w entry_graph = Done (code, g')
    ∧ ∃ bodies,
        length bodies = 2%nat
        ∧ (Forall (λ body, N.of_nat (length body) < u32_mod) bodies →
           read_vec read_name code = Some (bodies, [])).
Proof.
  eexists _, _, _. split; [reflexivity|]. split; [reflexivity|].
  match goal with
  | |- ∃ bodies, _ ∧ (_ → read_vec _ ?code = _) =>
      destruct (code_section_read test_host 2
                  (default WASMWriter.empty
                     (match configureWriter entry_graph with
                      | Done w => Some w
                      | _ => None
                      end))
                  entry_graph entry_graph code eq_refl)
        as (bodies & Hbodies & Hread); [by vm_compute|]
  end.
  exists bodies. split; [|exact Hread].
  by apply Forall2_length in Hbodies.
Defined.

(** ** The layout of the whole module *)





(** ** Following links *)

Lemma find_index_app {A} (p : A → bool) (pre post : list A) (x : A) :
  (∀ y, y ∈ pre → p y = false) → p x = true →
  find_index p (pre ++ x :: post) = Some (length pre).
Proof.
  intros Hpre Hx. induction pre as [|y pre IH]; cbn.
  - by rewrite Hx.
  - rewrite (Hpre y) by apply list_elem_of_here.
    rewrite IH; [done|]. intros z Hz. apply Hpre. by apply list_elem_of_further.
Qed.

(** An endpoint made of an identifier below [2^16] and a pin: the mask
    gives the low 15 bits of the identifier, the shift gives the pin. *)
Lemma endpoint_decode (id pin : N) :
  id < 65536 →
  N.land (N.lor id (N.shiftl pin 16)) 0x7fff = id mod 32768
  ∧ N.shiftr (N.lor id (N.shiftl pin 16)) 16 = pin.
Proof.
  intros Hid. rewrite (lor_shiftl_add id pin 16) by exact Hid.
  change (2 ^ 16) with 65536. split.
  - change 0x7fff with (N.ones 15). rewrite N.land_ones.
    change (2 ^ 15) with 32768.
    replace (id + pin * 65536) with (id + (pin * 2) * 32768) by lia.
    by rewrite N.Div0.mod_add.
  - rewrite N.shiftr_div_pow2. change (2 ^ 16) with 65536.
    rewrite N.div_add by done. rewrite N.div_small by exact Hid. lia.
Qed.

(** X12. [getInputNode] finds the first link whose target is the input pin
    [idx] of the node and decodes its source: the node is looked up by the
    low 15 bits of the source identifier, the pin is the source pin.  A
    source identifier of 32768 or more is therefore looked up as another
    identifier. *)
Theorem getInputNode_first_link (g : Graph) (self_id idx source pin : N)
    (pre post : list NodeEditorLink) (l : NodeEditorLink) :
  m_links g = pre ++ l :: post →
  idx < 65536 →
  to l = N.lor self_id (N.shiftl idx 16) →
  (∀ l', l' ∈ pre → to l' ≠ to l) →
  from l = N.lor source (N.shiftl pin 16) →
  source < 65536 →
  getInputNode self_id idx g = (getNode (source mod 32768) g, pin).
Proof.
  intros Hlinks Hidx Hto Hfirst Hfrom Hsource.
  assert (Hshift : N.shiftl idx 16 mod u32_mod = N.shiftl idx 16).
  { apply N.mod_small. rewrite N.shiftl_mul_pow2.
    change (2 ^ 16) with 65536. change u32_mod with 4294967296. lia. }
  unfold getInputNode. rewrite Hshift, Hlinks.
  rewrite (find_index_app _ pre post l).
  - rewrite list_lookup_middle by done.
    destruct (endpoint_decode source pin Hsource) as [Hnode Hpin].
    by rewrite Hfrom, Hnode, Hpin.
  - intros l' Hl'. apply N.eqb_neq. rewrite <- Hto. by apply Hfirst.
  - apply N.eqb_eq. exact Hto.
Qed.

Lemma getInputNode_first_link_witness :
  getInputNode 3 1 (mismatch_graph AddNode) = (Some 1%nat, 1).
Proof.
  exact (getInputNode_first_link (mismatch_graph AddNode) 3 1 2 1
           [mkLink 1 0 3 0] [] (mkLink 2 1 3 1) eq_refl
           ltac:(by vm_compute) eq_refl
           ltac:(by intros l' ->%list_elem_of_singleton) eq_refl
           ltac:(by vm_compute)).
Defined.

(** X13. An input pin without a link, or whose link comes from an
    identifier that no node has, reads as not connected: [getInputNode]
    returns the null node exactly in these two cases. *)
Theorem getInputNode_null (g : Graph) (self_id idx : N) :
  (getInputNode self_id idx g).1 = None
  ↔ (∀ l, l ∈ m_links g →
          to l ≠ N.lor self_id (N.shiftl idx 16 mod u32_mod))
    ∨ ∃ pre l post,
        m_links g = pre ++ l :: post
        ∧ to l = N.lor self_id (N.shiftl idx 16 mod u32_mod)
        ∧ (∀ l', l' ∈ pre →
                 to l' ≠ N.lor self_id (N.shiftl idx 16 mod u32_mod))
        ∧ ∀ n, n ∈ m_nodes g → m_id n ≠ N.land (from l) 0x7fff.
Proof.
  unfold getInputNode.
  set (target := N.lor self_id (N.shiftl idx 16 mod u32_mod)).
  destruct (find_index _ (m_links g)) as [i|] eqn:Hfind.
  - apply find_index_Some in Hfind as (l & Hl & Hto & Hbefore).
    apply N.eqb_eq in Hto. rewrite Hl. cbn [fst].
    unfold getNode. rewrite find_index_None.
    split.
    + intros Hnone. right.
      exists (take i (m_links g)), l, (drop (S i) (m_links g)).
      split_and!; [by rewrite take_drop_middle | done | |].
      * intros l' (j & Hj)%list_elem_of_lookup_1.
        apply lookup_take_Some in Hj as [Hj Hlt].
        specialize (Hbefore j l' Hlt Hj). by apply N.eqb_neq in Hbefore.
      * intros n Hn. specialize (Hnone n Hn). by apply N.eqb_neq in Hnone.
    + intros [Hno | (pre & l' & post & Hlinks & Hto' & Hpre & Hnodes)].
      * destruct (Hno l (list_elem_of_lookup_2 _ _ _ Hl) Hto).
      * assert (i = length pre) as ->.
        { destruct (Nat.lt_trichotomy i (length pre)) as [Hlt | [-> | Hgt]];
            [|done|].
          - rewrite Hlinks, lookup_app_l in Hl by exact Hlt.
            destruct (Hpre l (list_elem_of_lookup_2 _ _ _ Hl) Hto).
          - specialize (Hbefore (length pre) l' Hgt).
            rewrite Hlinks, list_lookup_middle in Hbefore by done.
            specialize (Hbefore eq_refl). apply N.eqb_neq in Hbefore.
            by destruct Hbefore. }
        rewrite Hlinks, list_lookup_middle in Hl by done.
        injection Hl as <-.
        intros n Hn. apply N.eqb_neq. by apply Hnodes.
  - cbn [fst]. rewrite find_index_None in Hfind. split; [|done].
    intros _. left. intros l Hl. apply N.eqb_neq. by apply Hfind.
Qed.

(** ** Links never dangle *)

Lemma getNode_is_Some (id : N) (g : Graph) :
  is_Some (getNode id g) ↔ ∃ n, n ∈ m_nodes g ∧ m_id n = id.
Proof.
  unfold getNode. split.
  - intros [i Hi]. apply find_index_Some in Hi as (n & Hn & Hid & _).
    exists n. split; [by eapply list_elem_of_lookup_2|by apply N.eqb_eq].
  - intros (n & Hn & Hid).
    destruct (find_index _ (m_nodes g)) as [i|] eqn:Hfind; [by eexists|].
    rewrite find_index_None in Hfind. specialize (Hfind n Hn).
    apply N.eqb_neq in Hfind. done.
Qed.

Lemma addNode_links_resolve (d : NodeData) (g : Graph) :
  links_resolve g → links_resolve (addNode d g).
Proof.
  intros Hg l Hl. destruct (Hg l Hl) as [Hfrom Hto].
  rewrite !getNode_is_Some in *. cbn [addNode m_nodes].
  split.
  - destruct Hfrom as (n & Hn & Hid). exists n.
    split; [apply elem_of_app; by left|done].
  - destruct Hto as (n & Hn & Hid). exists n.
    split; [apply elem_of_app; by left|done].
Qed.

Lemma removeNode_links_resolve (node : nat) (g g' : Graph) :
  links_resolve g → removeNode node g = Some g' → links_resolve g'.
Proof.
  unfold removeNode. intros Hg.
  destruct (m_nodes g !! node) as [n|] eqn:Hn; [|done].
  intros [= <-] l. cbn [m_links m_nodes].
  rewrite removeNode_links_filter, list_elem_of_filter.
  intros [Hoff Hl]. destruct (Hg l Hl) as [Hfrom Hto].
  rewrite !getNode_is_Some in *. cbn [m_nodes].
  assert (Hkeep : ∀ id, id ≠ m_id n →
            (∃ x, x ∈ m_nodes g ∧ m_id x = id) →
            ∃ x, x ∈ delete node (m_nodes g) ∧ m_id x = id).
  { intros id Hid (x & [i Hi]%list_elem_of_lookup_1 & Hx).
    exists x. split; [|done].
    destruct (decide (i = node)) as [->|Hne]; [congruence|].
    destruct (decide (i < node)%nat) as [Hlt|Hge].
    - apply (list_elem_of_lookup_2 _ i). by rewrite list_lookup_delete_lt.
    - apply (list_elem_of_lookup_2 _ (pred i)).
      rewrite list_lookup_delete_ge by lia.
      by replace (S (pred i)) with i by lia. }
  split; (apply Hkeep; [|done]); intros Heq; apply Hoff.
  - by left.
  - by right.
Qed.

(** X14. No edit leaves a link behind that points to a node that is gone:
    when every link of a graph starts and ends on a node of the graph, this
    still holds after any sequence of [addNode] and [removeNode]. *)
Theorem edits_keep_links_resolve (ops : list GraphOp) (g g' : Graph) :
  links_resolve g → apply_ops ops g = Some g' → links_resolve g'.
Proof.
  revert g. induction ops as [|op ops IH]; intros g Hg; cbn.
  - by intros [= <-].
  - destruct (apply_op op g) as [g1|] eqn:Hop; [|done].
    apply IH. destruct op as [d|node]; cbn in Hop.
    + injection Hop as <-. by apply addNode_links_resolve.
    + by eapply removeNode_links_resolve.
Qed.

Lemma edits_keep_links_resolve_witness :
  links_resolve faulty_yaw_graph
  ∧ apply_ops [OpRemoveNode 1; OpAddNode SetYawNode] faulty_yaw_graph
    = Some {| m_nodes := [mkNode 1 UpdateNode; mkNode 3 (SetVariableNode 0);
                          mkNode 4 (ConstNode 0); mkNode 5 SetYawNode];
              m_links := [mkLink 4 0 3 1];
              m_variables := [{| name := "v"; type := ScriptValueType.FLOAT |}];
              m_node_counter := 5 |}
  ∧ links_resolve
      {| m_nodes := [mkNode 1 UpdateNode; mkNode 3 (SetVariableNode 0);
                     mkNode 4 (ConstNode 0); mkNode 5 SetYawNode];
         m_links := [mkLink 4 0 3 1];
         m_variables := [{| name := "v"; type := ScriptValueType.FLOAT |}];
         m_node_counter := 5 |}.
Proof.
  assert (Hg : links_resolve faulty_yaw_graph).
  { intros l Hl. unfold faulty_yaw_graph in Hl. cbn [m_links] in Hl.
    repeat (apply elem_of_cons in Hl as [->|Hl];
              [vm_compute; split; by eexists|]).
    by apply elem_of_nil in Hl. }
  split; [exact Hg|]. split; [reflexivity|].
  exact (edits_keep_links_resolve
           [OpRemoveNode 1; OpAddNode SetYawNode] faulty_yaw_graph _
           Hg eq_refl).
Defined.

(** ** Flow nodes *)

Section FlowNodes.
Context (host : Host).

(** X15. [IfNode::generate] first looks at its two flow outputs, then at
    the condition on input pin 1.  With an output not connected the
    [m_error] of the node is "Missing outputs" after the call, whatever the
    condition; with both connected and no condition it is "Missing
    condition"; in both cases nothing is written.  Otherwise it writes the
    condition, [IF] with the empty block type, the true branch, [ELSE], the
    false branch and [END]. *)
Theorem IfNode_generate (fuel : nat) (g : Graph) (this : nat) (n : Node)
    (output_idx : N) :
  m_nodes g !! this = Some n →
  data n = IfNode →
  let true_branch := getOutputNode (m_id n) 0 g in
  let false_branch := getOutputNode (m_id n) 1 g in
  let cond := getInputNode (m_id n) 1 g in
  (true_branch.1 = None ∨ false_branch.1 = None →
   ∃ g' n',
     generate host (S fuel) this output_idx g = Done ([], g')
     ∧ g' = setError this "Missing outputs" g
     ∧ m_nodes g' !! this = Some n'
     ∧ m_error n' = "Missing outputs"
     ∧ data n' = IfNode)
  ∧ (is_Some true_branch.1 → is_Some false_branch.1 → cond.1 = None →
     ∃ g' n',
       generate host (S fuel) this output_idx g = Done ([], g')
       ∧ g' = setError this "Missing condition" g
       ∧ m_nodes g' !! this = Some n'
       ∧ m_error n' = "Missing condition"
       ∧ data n' = IfNode)
  ∧ (∀ t f c oc ot oe gc gt ge,
       true_branch.1 = Some t → false_branch.1 = Some f → cond.1 = Some c →
       generate host fuel c cond.2 g = Done (oc, gc) →
       generate host fuel t true_branch.2 gc = Done (ot, gt) →
       generate host fuel f false_branch.2 gt = Done (oe, ge) →
       generate host (S fuel) this output_idx g
       = Done (oc ++ [WasmOp.IF; 0x40] ++ ot ++ [WasmOp.ELSE] ++ oe
               ++ [WasmOp.END], ge)).
Proof.
  intros Hn Hd. cbn zeta.
  assert (Hrecorded : ∀ msg (r : outcome (list byte * Graph)),
            r = Done ([], setError this msg g) →
            ∃ g' n', r = Done ([], g') ∧ g' = setError this msg g
                     ∧ m_nodes g' !! this = Some n'
                     ∧ m_error n' = msg ∧ data n' = IfNode).
  { intros msg r ->.
    exists (setError this msg g), (with_error msg n).
    split_and!; [reflexivity..| |reflexivity|exact Hd].
    cbn. by rewrite list_lookup_alter_eq, Hn. }
  cbn [generate]. rewrite Hn, Hd.
  destruct (getOutputNode (m_id n) 0 g) as [[t|] ti],
    (getOutputNode (m_id n) 1 g) as [[f|] fi],
    (getInputNode (m_id n) 1 g) as [[c|] ci]; cbn [fst snd].
  all: split_and!.
  all: try (intros [?|?]; first [done | by apply Hrecorded]).
  all: try (intros [? ?] [? ?]; first [done | intros _; by apply Hrecorded]).
  all: try (intros ? ? ? ? ? ? ? ? ? ? ? ?; done).
  intros t' f' c' oc ot oe gc gt ge [= <-] [= <-] [= <-] Hc Ht Hf.
  unfold gseq, emit. rewrite Hc. cbn [obind]. rewrite Ht. cbn [obind].
  by rewrite Hf.
Qed.

(** The nodes that a generator leaves behind answer [getOutputNode] as
    before. *)
Lemma getOutputNode_keeps (g g' : Graph) (self_id idx : N) :
  clearErrors g' = clearErrors g →
  getOutputNode self_id idx g' = getOutputNode self_id idx g.
Proof.
  unfold clearErrors. intros [= Hnodes Hlinks _ _].
  assert (Hget : ∀ id, getNode id g' = getNode id g).
  { intros id. unfold getNode.
    revert Hnodes. generalize (m_nodes g).
    induction (m_nodes g') as [|x l IH]; intros [|y l'] Heq; cbn in *;
      try done.
    injection Heq as Hid _ _ Hl. by rewrite Hid, (IH l'). }
  unfold getOutputNode. rewrite Hlinks.
  destruct (find_index _ (m_links g)) as [i|]; [|done].
  destruct (m_links g !! i); [|done]. by rewrite Hget.
Qed.

(** X16. [SequenceNode::generate] asks the nodes on its flow outputs
    0, 1, 2, ... in this order, each with the argument 0, and stops at the
    first output that is not connected: what is connected to later outputs
    is not generated. *)
Theorem SequenceNode_generate (fuel : nat) (g : Graph) (this : nat) (n : Node)
    (output_idx : N) (children : list nat) :
  m_nodes g !! this = Some n →
  data n = SequenceNode →
  (∀ i c, children !! i = Some c →
          (getOutputNode (m_id n) (N.of_nat i) g).1 = Some c) →
  (getOutputNode (m_id n) (N.of_nat (length children)) g).1 = None →
  (length children ≤ fuel)%nat →
  N.of_nat (length children) < u32_mod →
  generate host (S fuel) this output_idx g
  = generate_all host fuel children g.
Proof.
  intros Hn Hd Hchildren Hend Hfuel Hbound.
  cbn [generate]. rewrite Hn, Hd.
  match goal with |- ?loop fuel 0 g = _ => set (L := loop) end.
  assert (Hstop : ∀ k i g1, (getOutputNode (m_id n) i g1).1 = None →
                            L k i g1 = Done ([], g1)).
  { intros k i g1 Hnone.
    destruct k;
      [change (L 0%nat i g1)
         with (match getOutputNode (m_id n) i g1 with
               | (None, _) => Done (([] : list byte), g1)
               | (Some nx, _) => OutOfFuel
               end)
      |change (L (S k) i g1)
         with (match getOutputNode (m_id n) i g1 with
               | (None, _) => Done ([], g1)
               | (Some nx, _) =>
                   (generate host fuel nx 0 ;> L k ((i + 1) mod u32_mod)) g1
               end)];
      by destruct (getOutputNode (m_id n) i g1) as [[nx|] ?]. }
  assert (Hnext : ∀ k i g1 c, (getOutputNode (m_id n) i g1).1 = Some c →
                    L (S k) i g1
                    = (generate host fuel c 0
                       ;> L k ((i + 1) mod u32_mod)) g1).
  { intros k i g1 c Hc.
    change (L (S k) i g1)
      with (match getOutputNode (m_id n) i g1 with
            | (None, _) => Done ([], g1)
            | (Some nx, _) =>
                (generate host fuel nx 0 ;> L k ((i + 1) mod u32_mod)) g1
            end).
    destruct (getOutputNode (m_id n) i g1) as [[nx|] ?]; [|done].
    by injection Hc as ->. }
  clearbody L.
  assert (Hloop : ∀ cs k i g1,
            clearErrors g1 = clearErrors g →
            (∀ j c, cs !! j = Some c →
               (getOutputNode (m_id n) (N.of_nat (i + j)) g).1 = Some c) →
            (getOutputNode (m_id n) (N.of_nat (i + length cs)) g).1 = None →
            (length cs ≤ k)%nat →
            N.of_nat (i + length cs) < u32_mod →
            L k (N.of_nat i) g1 = generate_all host fuel cs g1).
  { induction cs as [|c cs IH]; intros k i g1 Hg1 Hcs Hlast Hk Hi.
    - rewrite Nat.add_0_r in Hlast. apply Hstop.
      by rewrite (getOutputNode_keeps g g1).
    - destruct k as [|k]; [cbn in Hk; lia|].
      specialize (Hcs 0%nat c eq_refl) as Hc. rewrite Nat.add_0_r in Hc.
      rewrite (Hnext k (N.of_nat i) g1 c)
        by by rewrite (getOutputNode_keeps g g1).
      cbn [generate_all length] in *. unfold gseq.
      destruct (generate host fuel c 0 g1) as [[o1 g2]| |] eqn:Hgen;
        [|done..].
      cbn [obind].
      replace ((N.of_nat i + 1) mod u32_mod) with (N.of_nat (S i))
        by (rewrite N.mod_small; lia).
      rewrite (IH k (S i) g2); [done| | | |lia|].
      + rewrite (generate_keeps host fuel c 0 g1 o1 g2 Hgen). exact Hg1.
      + intros j c' Hj. replace (S i + j)%nat with (i + S j)%nat by lia.
        by apply Hcs.
      + by replace (S i + length cs)%nat with (i + S (length cs))%nat by lia.
      + by replace (S i + length cs)%nat with (i + S (length cs))%nat by lia. }
  apply (Hloop children fuel 0%nat g); done.
Qed.

(** X17. Nothing looks for cycles.  An arithmetic or comparison node
    whose input pin 0 is linked to its own output asks itself for its code
    before anything else, and so on without end: [generate] does not
    return, whatever the depth allowed. *)
Theorem generate_self_loop (fuel : nat) (g : Graph) (this : nat) (n : Node)
    (output_idx a_idx : N) :
  m_nodes g !! this = Some n →
  is_binary (data n) = true →
  getInputNode (m_id n) 0 g = (Some this, a_idx) →
  is_Some (getInputNode (m_id n) 1 g).1 →
  generate host fuel this output_idx g = OutOfFuel.
Proof.
  intros Hn Hd Ha [b Hb]. revert output_idx.
  induction fuel as [|fuel IH]; intros output_idx; [done|].
  cbn [generate]. rewrite Hn, Ha.
  destruct (getInputNode (m_id n) 1 g) as [[b'|] b_idx]; [|done].
  destruct (data n); try done; unfold gseq; by rewrite IH.
Qed.

End FlowNodes.

(** The if node of [if_graph]; without the link on its true output it
    records "Missing outputs", also when the condition is missing too;
    without the link on its condition it records "Missing condition". *)
Lemma IfNode_generate_witness :
  generate test_host 3 0 0 if_graph
  = Done ([WasmOp.F32_CONST; 0x00; 0x00; 0x80; 0x3f; WasmOp.IF; 0x40]
          ++ [WasmOp.F32_CONST; 0x00; 0x00; 0x80; 0x3f; WasmOp.GLOBAL_SET; 1]
          ++ [WasmOp.ELSE]
          ++ [WasmOp.F32_CONST; 0x00; 0x00; 0x80; 0x3f; WasmOp.GLOBAL_SET; 2]
          ++ [WasmOp.END], if_graph)
  ∧ (∃ g' n',
       generate test_host 3 0 0 (removeLink 1 if_graph) = Done ([], g')
       ∧ m_nodes g' !! 0%nat = Some n'
       ∧ m_error n' = "Missing outputs")
  ∧ (∃ g' n',
       generate test_host 3 0 0 (removeLink 0 (removeLink 1 if_graph))
       = Done ([], g')
       ∧ m_nodes g' !! 0%nat = Some n'
       ∧ m_error n' = "Missing outputs")
  ∧ (∃ g' n',
       generate test_host 3 0 0 (removeLink 0 if_graph) = Done ([], g')
       ∧ m_nodes g' !! 0%nat = Some n'
       ∧ m_error n' = "Missing condition").
Proof.
  split_and!.
  - destruct (IfNode_generate test_host 2 if_graph 0 (mkNode 1 IfNode) 0
                eq_refl eq_refl) as (_ & _ & Hboth).
    exact (Hboth 2%nat 3%nat 1%nat _ _ _ _ _ _ eq_refl eq_refl eq_refl
             ltac:(by vm_compute) ltac:(by vm_compute) ltac:(by vm_compute)).
  - destruct (IfNode_generate test_host 2 (removeLink 1 if_graph) 0
                (mkNode 1 IfNode) 0 eq_refl eq_refl) as (Houtputs & _ & _).
    destruct Houtputs as (g' & n' & Hgen & _ & Hn' & Herr & _);
      [left; reflexivity|].
    by exists g', n'.
  - destruct (IfNode_generate test_host 2
                (removeLink 0 (removeLink 1 if_graph)) 0
                (mkNode 1 IfNode) 0 eq_refl eq_refl) as (Houtputs & _ & _).
    destruct Houtputs as (g' & n' & Hgen & _ & Hn' & Herr & _);
      [left; reflexivity|].
    by exists g', n'.
  - destruct (IfNode_generate test_host 2 (removeLink 0 if_graph) 0
                (mkNode 1 IfNode) 0 eq_refl eq_refl) as (_ & Hcond & _).
    destruct Hcond as (g' & n' & Hgen & _ & Hn' & Herr & _);
      [by eexists | by eexists | reflexivity|].
    by exists g', n'.
Defined.

Lemma SequenceNode_generate_witness :
  generate test_host 3 0 0 sequence_graph
  = Done ([WasmOp.GLOBAL_GET; 1; WasmOp.GLOBAL_GET; 2], sequence_graph).
Proof.
  rewrite (SequenceNode_generate test_host 2 sequence_graph 0
             (mkNode 1 SequenceNode) 0 [1; 2]%nat eq_refl eq_refl).
  - by vm_compute.
  - intros [|[|[|i]]] c; intros [= <-]; by vm_compute.
  - by vm_compute.
  - cbn; lia.
  - by vm_compute.
Defined.

Lemma generate_self_loop_witness :
  generate test_host 5 0 0 self_loop_graph = OutOfFuel.
Proof.
  apply (generate_self_loop test_host 5 self_loop_graph 0 (mkNode 1 AddNode)
           0 0 eq_refl eq_refl).
  - by vm_compute.
  - by eexists.
Defined.

(** ** More on saving and loading *)

Section Loading.
Context (host : Host).

Local Opaque write_u32.

(** The nodes that were saved are read one by one; reading goes on with
    what follows them. *)
Lemma deserialize_nodes_app (nodes : list Node) :
  Forall (λ n, m_id n < u32_mod ∧ (m_pos n).1 < u32_mod
               ∧ (m_pos n).2 < u32_mod ∧ payload_roundtrips host (data n))
    nodes →
  ∀ bytes g rest more,
    m_node_counter g < u32_mod →
    serialize_nodes host nodes = Done bytes →
    deserialize_nodes host (length nodes + more) (bytes ++ rest) g
    = deserialize_nodes host more rest
        {| m_nodes := m_nodes g ++ (with_error EmptyString <$> nodes);
           m_links := m_links g;
           m_variables := m_variables g;
           m_node_counter :=
             (m_node_counter g + N.of_nat (length nodes)) mod u32_mod |}.
Proof.
  induction 1 as [|n nodes (Hid & Hx & Hy & Hpayload) _ IH];
    intros bytes g rest more Hc.
  - intros [= <-]. cbn. rewrite app_nil_r, N.add_0_r, N.mod_small by done.
    by destruct g.
  - cbn [serialize_nodes]. unfold serialize_node.
    destruct (Node_serialize host (data n)) as [payload| |] eqn:Hser;
      [|done..].
    cbn [obind].
    destruct (serialize_nodes host nodes) as [bs| |] eqn:Hrest; [|done..].
    cbn [obind]. intros [= <-].
    destruct (NodeType_of_to_u32 (getType (data n))) as [Htype Hbound].
    cbn [length Nat.add deserialize_nodes].
    rewrite <- !app_assoc, read_write_u32, Htype by exact Hbound.
    rewrite !read_write_u32 by assumption.
    rewrite (Hpayload payload _ Hser).
    unfold createNode, addNode. cbn [m_nodes m_links m_variables m_node_counter].
    rewrite alter_last.
    rewrite (IH bs _ rest more); [|cbn; by apply N.mod_lt|done].
    cbn [m_nodes m_links m_variables m_node_counter].
    rewrite fmap_cons, <- app_assoc. cbn [app].
    rewrite N.Div0.add_mod_idemp_l.
    f_equal. f_equal.
    + do 2 f_equal. unfold with_error. by destruct (m_pos n).
    + f_equal. lia.
Qed.

(** What [deserialize] does with a well-formed file up to its nodes *)
Lemma deserialize_file (g0 : Graph) (counter node_count : N)
    (vars : list GraphVariable) (links : list NodeEditorLink)
    (nodes : list byte) :
  counter < u32_mod →
  Forall (λ var, string_roundtrips host (name var) ∧ type var < u32_mod)
    vars →
  Forall (λ l, from l < u32_mod ∧ to l < u32_mod) links →
  N.of_nat (length vars) < u32_mod →
  N.of_nat (length links) < u32_mod →
  node_count < u32_mod →
  deserialize host (file_bytes host counter vars links node_count nodes) g0
  = (g' ←o deserialize_nodes host (N.to_nat node_count) nodes
             {| m_nodes := m_nodes g0;
                m_links := m_links g0 ++ links;
                m_variables := m_variables g0 ++ vars;
                m_node_counter := counter |};
     Done (true, g')).
Proof.
  intros Hc Hvars Hlinks Hnv Hnl Hnn.
  unfold deserialize, file_bytes.
  rewrite read_write_u32 by by vm_compute.
  rewrite N.eqb_refl. cbn [negb].
  rewrite read_write_u32 by by vm_compute.
  cbn [N.eqb negb].
  rewrite !read_write_u32, Nat2N.id by assumption.
  rewrite deserialize_variables_serialize by exact Hvars.
  rewrite read_write_u32, Nat2N.id by assumption.
  rewrite deserialize_links_serialize by exact Hlinks.
  by rewrite read_write_u32 by assumption.
Qed.

Lemma serialize_file (g : Graph) (bytes : list byte) :
  serialize host g = Done bytes →
  ∃ nodes,
    serialize_nodes host (m_nodes g) = Done nodes
    ∧ bytes = file_bytes host (m_node_counter g) (m_variables g) (m_links g)
                (N.of_nat (length (m_nodes g))) nodes.
Proof.
  unfold serialize.
  destruct (serialize_nodes host (m_nodes g)) as [nodes| |]; [|done..].
  cbn [obind]. intros [= <-]. by exists nodes.
Qed.

(** X18. [deserialize] does not empty the graph it fills.  Loading a saved
    graph into a graph that already has nodes, links and variables appends
    the saved ones to them, with their stored identifiers, and replaces the
    counter by the stored counter plus the number of nodes loaded. *)
Theorem deserialize_appends (g g0 : Graph) (bytes : list byte) :
  persistable host g →
  serialize host g = Done bytes →
  deserialize host bytes g0
  = Done (true,
          {| m_nodes := m_nodes g0 ++ (with_error EmptyString <$> m_nodes g);
             m_links := m_links g0 ++ m_links g;
             m_variables := m_variables g0 ++ m_variables g;
             m_node_counter :=
               (m_node_counter g + N.of_nat (length (m_nodes g)))
               mod u32_mod |}).
Proof.
  intros [Hc Hvars Hlinks Hnodes (Hnv & Hnl & Hnn)]
    (nodes & Hns & ->)%serialize_file.
  rewrite deserialize_file by assumption.
  pose proof (deserialize_nodes_app _ Hnodes nodes
                {| m_nodes := m_nodes g0;
                   m_links := m_links g0 ++ m_links g;
                   m_variables := m_variables g0 ++ m_variables g;
                   m_node_counter := m_node_counter g |} [] 0%nat Hc Hns)
    as Hread.
  rewrite app_nil_r, Nat.add_0_r in Hread.
  by rewrite Nat2N.id, Hread.
Qed.

(** X19. A type number outside of the enumeration is not rejected.  In a
    file that is well formed up to some node whose type number is 25 or
    more, [createNode] returns the null pointer for that node and
    [deserialize] writes through it: the call does not return [false], it
    does not return at all. *)
Theorem deserialize_unknown_node_type (g0 : Graph) (counter node_count t : N)
    (vars : list GraphVariable) (links : list NodeEditorLink)
    (nodes : list Node) (bytes rest : list byte) :
  counter < u32_mod →
  Forall (λ var, string_roundtrips host (name var) ∧ type var < u32_mod)
    vars →
  Forall (λ l, from l < u32_mod ∧ to l < u32_mod) links →
  Forall (λ n, m_id n < u32_mod ∧ (m_pos n).1 < u32_mod
               ∧ (m_pos n).2 < u32_mod ∧ payload_roundtrips host (data n))
    nodes →
  serialize_nodes host nodes = Done bytes →
  N.of_nat (length vars) < u32_mod →
  N.of_nat (length links) < u32_mod →
  N.of_nat (length nodes) < node_count < u32_mod →
  25 ≤ t < u32_mod →
  deserialize host
    (file_bytes host counter vars links node_count
       (bytes ++ write_u32 t ++ rest)) g0
  = Abort.
Proof.
  intros Hc Hvars Hlinks Hnodes Hns Hnv Hnl [Hmore Hnn] [Ht Htb].
  rewrite deserialize_file by assumption.
  replace (N.to_nat node_count)
    with (length nodes + S (N.to_nat node_count - S (length nodes)))%nat
    by lia.
  rewrite (deserialize_nodes_app _ Hnodes bytes
             {| m_nodes := m_nodes g0;
                m_links := m_links g0 ++ links;
                m_variables := m_variables g0 ++ vars;
                m_node_counter := counter |} _ _ Hc Hns).
  cbn [deserialize_nodes]. rewrite read_write_u32 by exact Htb.
  unfold NodeType_of_u32. rewrite lookup_ge_None_2; [done|].
  cbn [length NodeType_list]. lia.
Qed.

Local Transparent write_u32.

Lemma serialize_nodes_outcome (nodes : list Node) :
  (serialize_nodes host nodes = Abort
   ↔ Exists (λ n, cannot_be_saved host (data n)) nodes)
  ∧ serialize_nodes host nodes ≠ OutOfFuel.
Proof.
  assert (Hnode : ∀ n,
            (Node_serialize host (data n) = Abort
             ↔ cannot_be_saved host (data n))
            ∧ Node_serialize host (data n) ≠ OutOfFuel).
  { intros n. destruct (data n) as
      [| | | | | |[cmp|] [func|]| | | | | | | | | | | |? cmp|? ? cmp];
      cbn.
    all: try destruct (getComponentName host cmp).
    all: split; [split|]; try done; try tauto.
    all: try by intros [|]. }
  induction nodes as [|n nodes [IHa IHf]]; cbn [serialize_nodes].
  - split; [|done]. split; [done|]. by intros ?%Exists_nil.
  - rewrite Exists_cons. unfold serialize_node.
    destruct (Hnode n) as [Ha Hf].
    destruct (Node_serialize host (data n)) as [payload| |]; cbn [obind];
      [| |done].
    + destruct (serialize_nodes host nodes) as [bs| |]; cbn [obind];
        [| |done].
      * split; [|done]. split; [done|]. intros [?%Ha|?%IHa]; done.
      * split; [|done]. split; [intros _; right; by apply IHa|done].
    + split; [|done]. split; [intros _; left; by apply Ha|done].
Qed.

(** X20. [serialize] does not return exactly when some call node has no
    component or no function, or some node names a component type that is
    not registered: their [serialize] follows a null pointer.  A call node
    as [createNode] builds it is of this kind, so a graph cannot be saved
    right after [createNode(CALL)]. *)
Theorem serialize_null_members (g : Graph) :
  (serialize host g = Abort
   ↔ Exists (λ n, cannot_be_saved host (data n)) (m_nodes g))
  ∧ serialize host g ≠ OutOfFuel
  ∧ serialize host (createNode CALL g) = Abort.
Proof.
  assert (Hser : ∀ g1, (serialize host g1 = Abort
                        ↔ serialize_nodes host (m_nodes g1) = Abort)
                       ∧ (serialize host g1 = OutOfFuel
                          ↔ serialize_nodes host (m_nodes g1) = OutOfFuel)).
  { intros g1. unfold serialize.
    by destruct (serialize_nodes host (m_nodes g1)). }
  split_and!.
  - rewrite (proj1 (Hser g)). apply serialize_nodes_outcome.
  - rewrite (proj2 (Hser g)). apply serialize_nodes_outcome.
  - apply (proj1 (Hser _)), serialize_nodes_outcome.
    unfold createNode, addNode. cbn [m_nodes].
    apply Exists_app. right. by apply Exists_cons_hd.
Qed.

End Loading.

(** Loading the file of [faulty_yaw_graph] into [faulty_yaw_graph] itself
    gives every node, link and variable twice. *)
Lemma deserialize_appends_witness :
  ∃ bytes,
    serialize test_host faulty_yaw_graph = Done bytes
    ∧ deserialize test_host bytes faulty_yaw_graph
      = Done (true,
              {| m_nodes := m_nodes faulty_yaw_graph
                            ++ m_nodes faulty_yaw_graph;
                 m_links := m_links faulty_yaw_graph
                            ++ m_links faulty_yaw_graph;
                 m_variables := m_variables faulty_yaw_graph
                                ++ m_variables faulty_yaw_graph;
                 m_node_counter := 8 |}).
Proof.
  destruct (serialize test_host faulty_yaw_graph) as [bytes| |] eqn:Hser;
    [|by vm_compute in Hser..].
  exists bytes. split; [done|].
  exact (deserialize_appends test_host faulty_yaw_graph faulty_yaw_graph
           bytes faulty_yaw_graph_persistable Hser).
Defined.

(** A file with an update node followed by a node of type 25 *)
Lemma deserialize_unknown_node_type_witness :
  deserialize test_host
    (file_bytes test_host 1 [] [] 2
       ((write_u32 6 ++ write_u32 1 ++ write_u32 0 ++ write_u32 0)
        ++ write_u32 25 ++ write_u32 2))
    empty_graph
  = Abort.
Proof.
  apply (deserialize_unknown_node_type test_host empty_graph 1 2 25 [] []
           [mkNode 1 UpdateNode]).
  - by vm_compute.
  - apply Forall_nil_2.
  - apply Forall_nil_2.
  - apply Forall_cons; split; [|apply Forall_nil_2].
    split_and!; try by vm_compute.
    by intros payload rest [= <-].
  - by vm_compute.
  - by vm_compute.
  - by vm_compute.
  - split; by vm_compute.
  - split; by vm_compute.
Defined.
